(** * xterm-mouse: a shallow embedding of the event engine, the async
    generators and the escape-sequence patterns, with their properties. *)

From Stdlib Require Import ZArith List String Ascii Bool Lia.
Import ListNotations.
Open Scope Z_scope.

(** ** Data model (src/types) *)

Inductive ButtonType :=
  | BNone | BLeft | BMiddle | BRight
  | BWheelUp | BWheelDown | BWheelLeft | BWheelRight
  | BBack | BForward | BUnknown.

Inductive MouseEventAction := Move | Release | Press | Drag | Wheel | Click.

Definition action_eqb (a b : MouseEventAction) : bool :=
  match a, b with
  | Move, Move | Release, Release | Press, Press
  | Drag, Drag | Wheel, Wheel | Click, Click => true
  | _, _ => false
  end.

Inductive Protocol := SGR | ESC.

Record MouseEvent := mkEvent {
  x : Z; y : Z;
  button : ButtonType;
  action : MouseEventAction;
  shift : bool; alt : bool; ctrl : bool;
  raw : Z;
  data : string;
  protocol : Protocol
}.

(** [{ ...event, action: a }] *)
Definition with_action (e : MouseEvent) (a : MouseEventAction) : MouseEvent :=
  {| x := x e; y := y e; button := button e; action := a;
     shift := shift e; alt := alt e; ctrl := ctrl e; raw := raw e;
     data := data e; protocol := protocol e |}.

(** ** Mouse.handleEvent (src/src/core/Mouse.ts, lines 28-54) *)

(** What the emitter publishes: [emit(action, event)] or [emit('error', err)];
    [Uncaught] marks an exception that leaves the ['data'] callback. *)
Inductive Emission :=
  | EmitEvent (ch : MouseEventAction) (e : MouseEvent)
  | EmitError
  | Uncaught.

(** What [this.emitter.emit('error', err)] does: an ['error'] listener
    takes it and returns ([ErrHandled]), an ['error'] listener takes it and
    throws ([ErrListenerThrows]), or there is no ['error'] listener and
    EventEmitter throws [err] itself ([ErrUnhandled]). *)
Inductive ErrorEmit := ErrHandled | ErrListenerThrows | ErrUnhandled.

(** The listeners registered on the emitter: [throws_on ch e] says that
    invoking the listeners of channel [ch] with [e] throws (EventEmitter.emit
    propagates a listener's exception); [on_error] is what an emission on
    ['error'] does. *)
Record Listeners := mkListeners {
  throws_on : MouseEventAction -> MouseEvent -> bool;
  on_error : ErrorEmit
}.
Coercion throws_on : Listeners >-> Funclass.

(** No listener throws, and an ['error'] listener is registered. *)
Definition quiet : Listeners := mkListeners (fun _ _ => false) ErrHandled.

(** The emissions of [emit('error', err)], and whether it throws. *)
Definition error_emissions (o : ErrorEmit) : list Emission :=
  match o with
  | ErrHandled => [EmitError]
  | ErrListenerThrows => [EmitError; Uncaught]
  | ErrUnhandled => [Uncaught]
  end.

Definition error_rethrows (o : ErrorEmit) : bool :=
  match o with ErrHandled => false | _ => true end.

(** The click bookkeeping done after [emit(event.action, event)]:
    the new [lastPress] and the click scheduled with [process.nextTick]. *)
Definition click_step (lastPress : option MouseEvent) (ev : MouseEvent)
  : option MouseEvent * list MouseEvent :=
  match action ev with
  | Press => (Some ev, [])
  | Release =>
      match lastPress with
      | Some p =>
          let xDiff := Z.abs (x ev - x p) in
          let yDiff := Z.abs (y ev - y p) in
          if (xDiff <=? 1) && (yDiff <=? 1)
          then (None, [with_action ev Click])
          else (None, [])
      | None => (None, [])
      end
  | _ => (lastPress, [])
  end.

(** Result of the [for] loop inside the [try]: emissions, clicks handed to
    [process.nextTick], the final [lastPress], and whether a listener threw
    (which leaves the loop and enters the [catch]). *)
Record LoopResult := mkLoop {
  emitted : list Emission;
  ticks : list MouseEvent;
  lastPress_out : option MouseEvent;
  threw : bool
}.

Fixpoint handle_loop (l : Listeners) (lastPress : option MouseEvent)
    (events : list MouseEvent) : LoopResult :=
  match events with
  | [] => mkLoop [] [] lastPress false
  | ev :: rest =>
      if l (action ev) ev
      then mkLoop [EmitEvent (action ev) ev] [] lastPress true
      else
        let '(lp, t) := click_step lastPress ev in
        let r := handle_loop l lp rest in
        mkLoop (EmitEvent (action ev) ev :: emitted r) (t ++ ticks r)
               (lastPress_out r) (threw r)
  end.

(** [handleEvent] on one chunk already decoded into [events]: the [catch]
    republishes the exception on ['error'], and that emission may itself
    throw out of [handleEvent] ([handleEvent_throws]).  The scheduled clicks
    and [this.lastPress] are what the loop left when control left it. *)
Definition handleEvent (l : Listeners) (lastPress : option MouseEvent)
    (events : list MouseEvent) : list Emission * list MouseEvent * option MouseEvent :=
  let r := handle_loop l lastPress events in
  (emitted r ++ (if threw r then error_emissions (on_error l) else []), ticks r, lastPress_out r).

(** [handleEvent] throws: a listener threw and [emit('error', err)] threw too. *)
Definition handleEvent_throws (l : Listeners) (lastPress : option MouseEvent)
    (events : list MouseEvent) : bool :=
  threw (handle_loop l lastPress events) && error_rethrows (on_error l).

(** The Node event loop: each ['data'] chunk runs [handleEvent], then the
    [process.nextTick] queue is drained in FIFO order before the next I/O
    callback.  An exception that leaves the ['data'] callback, or a click
    listener that throws inside the tick, is an uncaught exception: the
    process stops (no tick and no later chunk runs). *)
Fixpoint drain_ticks (l : Listeners) (clicks : list MouseEvent)
  : list Emission * bool :=
  match clicks with
  | [] => ([], false)
  | c :: cs =>
      if l Click c then ([EmitEvent Click c], true)
      else let '(out, crashed) := drain_ticks l cs in
           (EmitEvent Click c :: out, crashed)
  end.

Fixpoint run (l : Listeners) (lastPress : option MouseEvent)
    (chunks : list (list MouseEvent)) : list Emission :=
  match chunks with
  | [] => []
  | c :: cs =>
      let '(out, t, lp) := handleEvent l lastPress c in
      if handleEvent_throws l lastPress c then out
      else
        let '(clicks, crashed) := drain_ticks l t in
        out ++ clicks ++ (if crashed then [] else run l lp cs)
  end.

(** ** Lifecycle: enable / disable / destroy (Mouse.ts, lines 96-163, 510-513) *)

(** The calls the Mouse makes on its input and output streams. *)
Inductive IoOp :=
  | OpWrite (s : string)
  | OpSetRawMode (b : bool)
  | OpSetEncoding (enc : string)
  | OpResume | OpPause
  | OpOnData | OpOffData.

(** The input stream as the Mouse observes it, and the output written. *)
Record World := mkWorld {
  isTTY : bool;
  isRaw : bool;
  readableEncoding : option string;
  streamPaused : bool;
  dataListener : bool;
  written : list string
}.

(** [faults op = Some msg]: the stream call [op] throws [new Error(msg)]. *)
Definition Faults := IoOp -> option string.

Definition no_faults : Faults := fun _ => None.

Record Mouse := mkMouse {
  enabled : bool;
  previousEncoding : option string;
  previousRawMode : option bool;
  lastPress : option MouseEvent;
  (** channels of the emitter that have at least one listener *)
  subscribed : list MouseEventAction
}.

(** A fresh [new Mouse(inputStream, outputStream, emitter)]: the
    constructor has no other parameter. *)
Definition new_mouse : Mouse := mkMouse false None None None [].

(** Thrown values: [new Error(msg)], [new MouseError(msg)], or
    [new MouseError(msg, originalError)]. *)
Inductive Exn :=
  | PlainError (msg : string)
  | MouseError (msg : string)
  | MouseErrorFrom (msg : string) (originalError : Exn).

(** [err.message] *)
Definition message (e : Exn) : string :=
  match e with PlainError m | MouseError m | MouseErrorFrom m _ => m end.

(** A state and exception monad over the Mouse and its streams. *)
Definition St := (Mouse * World)%type.
Definition M (A : Type) := Faults -> St -> St * (A + Exn).

Definition ret {A} (a : A) : M A := fun _ s => (s, inl a).
Definition throw {A} (e : Exn) : M A := fun _ s => (s, inr e).
Definition bind {A B} (m : M A) (k : A -> M B) : M B :=
  fun f s => match m f s with
             | (s', inl a) => k a f s'
             | (s', inr e) => (s', inr e)
             end.
Notation "x <- m ;; k" := (bind m (fun x => k)) (at level 61, m at next level, right associativity).
Notation "m ;; k" := (bind m (fun _ => k)) (at level 61, right associativity).

Definition get_mouse : M Mouse := fun _ s => (s, inl (fst s)).
Definition get_world : M World := fun _ s => (s, inl (snd s)).
Definition put_mouse (m : Mouse) : M unit := fun _ s => ((m, snd s), inl tt).

(** [try { m } catch (err) { h(err) }] *)
Definition try_catch {A} (m : M A) (h : Exn -> M A) : M A :=
  fun f s => match m f s with
             | (s', inr e) => h e f s'
             | r => r
             end.

(** [try { m } finally { fin }] where [fin] does not throw. *)
Definition try_finally {A} (m : M A) (fin : M unit) : M A :=
  fun f s => let '(s', r) := m f s in
             match fin f s' with
             | (s'', _) => (s'', r)
             end.

Definition exec_op (op : IoOp) (w : World) : World :=
  match op with
  | OpWrite str => {| isTTY := isTTY w; isRaw := isRaw w; readableEncoding := readableEncoding w;
                      streamPaused := streamPaused w; dataListener := dataListener w;
                      written := written w ++ [str] |}
  | OpSetRawMode b => {| isTTY := isTTY w; isRaw := b; readableEncoding := readableEncoding w;
                         streamPaused := streamPaused w; dataListener := dataListener w;
                         written := written w |}
  | OpSetEncoding e => {| isTTY := isTTY w; isRaw := isRaw w; readableEncoding := Some e;
                          streamPaused := streamPaused w; dataListener := dataListener w;
                          written := written w |}
  | OpResume => {| isTTY := isTTY w; isRaw := isRaw w; readableEncoding := readableEncoding w;
                   streamPaused := false; dataListener := dataListener w; written := written w |}
  | OpPause => {| isTTY := isTTY w; isRaw := isRaw w; readableEncoding := readableEncoding w;
                  streamPaused := true; dataListener := dataListener w; written := written w |}
  | OpOnData => {| isTTY := isTTY w; isRaw := isRaw w; readableEncoding := readableEncoding w;
                   streamPaused := streamPaused w; dataListener := true; written := written w |}
  | OpOffData => {| isTTY := isTTY w; isRaw := isRaw w; readableEncoding := readableEncoding w;
                    streamPaused := streamPaused w; dataListener := false; written := written w |}
  end.

(** A stream call: it either throws (the stream is left as it was) or
    takes effect. *)
Definition io (op : IoOp) : M unit :=
  fun f s => match f op with
             | Some msg => (s, inr (PlainError msg))
             | None => ((fst s, exec_op op (snd s)), inl tt)
             end.

Definition set_enabled (b : bool) (m : Mouse) : Mouse :=
  mkMouse b (previousEncoding m) (previousRawMode m) (lastPress m) (subscribed m).

Definition ESCs : string := String (ascii_of_nat 27) EmptyString.

(** [ANSI_CODES] (src/src/parser/constants.ts, lines 30-46) *)
Definition mouseButton_on := (ESCs ++ "[?1000h")%string.
Definition mouseButton_off := (ESCs ++ "[?1000l")%string.
Definition mouseDrag_on := (ESCs ++ "[?1002h")%string.
Definition mouseDrag_off := (ESCs ++ "[?1002l")%string.
Definition mouseMotion_on := (ESCs ++ "[?1003h")%string.
Definition mouseMotion_off := (ESCs ++ "[?1003l")%string.
Definition mouseSGR_on := (ESCs ++ "[?1006h")%string.
Definition mouseSGR_off := (ESCs ++ "[?1006l")%string.

Definition enable : M unit :=
  m <- get_mouse ;;
  if enabled m then ret tt else
  w <- get_world ;;
  if negb (isTTY w) then throw (PlainError "Mouse events require a TTY input stream") else
  try_catch
    (put_mouse (mkMouse true (readableEncoding w) (Some (isRaw w)) (lastPress m) (subscribed m)) ;;
     io (OpWrite (mouseButton_on ++ mouseDrag_on ++ mouseMotion_on ++ mouseSGR_on)) ;;
     io (OpSetRawMode true) ;;
     io (OpSetEncoding "utf8") ;;
     io OpResume ;;
     io OpOnData)
    (fun err => m' <- get_mouse ;;
                put_mouse (set_enabled false m') ;;
                throw (MouseErrorFrom ("Failed to enable mouse: " ++ message err) err)).

Definition disable : M unit :=
  m <- get_mouse ;;
  if negb (enabled m) then ret tt else
  try_finally
    (try_catch
       (io OpOffData ;;
        io OpPause ;;
        match previousRawMode m with Some b => io (OpSetRawMode b) | None => ret tt end ;;
        match previousEncoding m with Some e => io (OpSetEncoding e) | None => ret tt end ;;
        io (OpWrite (mouseSGR_off ++ mouseMotion_off ++ mouseDrag_off ++ mouseButton_off)))
       (fun err => throw (MouseErrorFrom ("Failed to disable mouse: " ++ message err) err)))
    (m' <- get_mouse ;;
     put_mouse (mkMouse false None None (lastPress m') (subscribed m'))).

(** [emitter.removeAllListeners()] *)
Definition removeAllListeners : M unit :=
  m <- get_mouse ;;
  put_mouse (mkMouse (enabled m) (previousEncoding m) (previousRawMode m) (lastPress m) []).

Definition destroy : M unit :=
  disable ;; removeAllListeners.

Definition isEnabled (s : St) : bool := enabled (fst s).

(** ** The async generators [eventsOf] and [stream] (Mouse.ts, lines 290-496)

    Both generators run the same loop over the same local state; they differ
    in the element type (a [MouseEvent], or a [{type, event}] pair), in the
    channels they subscribe to, and in the queue capacity: [eventsOf] uses
    [finalMaxQueue = Math.min(maxQueue, 1000)], [stream] uses [maxQueue]
    as given.  [maxQueue] is taken as an integer. *)

Definition aborted_msg : string := "The operation was aborted.".

(** [new MouseError(`Error in mouse event stream: ${err.message}`, err)] *)
Definition wrap_stream_error (msg : string) : Exn :=
  MouseError ("Error in mouse event stream: " ++ msg).

Module Gen.

(** [NotStarted]: the generator object exists but its body has not run
    (an async generator body starts on the first [next()]); [Running]: the
    body is between pulls (at a [yield], or suspended in [await]);
    [Finished]: the body left the loop and ran its [finally]. *)
Inductive Phase := NotStarted | Running | Finished.

Section Generator.
Variable A : Type.

Record Config := mkConfig {
  latestOnly : bool;
  capacity : Z
}.

Record Gen := mkGen {
  phase : Phase;
  queue : list A;
  errorQueue : list Exn;
  latest : option A;
  (** [resolveNext] / [rejectNext] are set: a [next()] is awaiting *)
  waiting : bool;
  (** [signal.aborted] *)
  aborted : bool
}.

Definition init : Gen := mkGen NotStarted [] [] None false false.

(** What happens to the generator: the consumer calls [next()] or
    [return()]; an event reaches [handler]; an error reaches
    [errorHandler]; the signal fires [abort]. *)
Inductive Input :=
  | Next
  | Return
  | Deliver (a : A)
  | StreamErr (msg : string)
  | Abort.

(** What the consumer observes: nothing, a yielded value, a rejection, a
    [next()] left pending, or [{done: true}]. *)
Inductive Output :=
  | Nothing
  | Yield (a : A)
  | Raise (e : Exn)
  | Pending
  | Done.

Definition finish (g : Gen) : Gen :=
  mkGen Finished (queue g) (errorQueue g) (latest g) false (aborted g).

(** The top of [while (true)]: runs when a [next()] resumes the body. *)
Definition loop_top (g : Gen) : Gen * Output :=
  if aborted g then (finish g, Raise (MouseError aborted_msg))
  else match errorQueue g with
       | e :: es => (finish (mkGen Running (queue g) es (latest g) false false), Raise e)
       | [] =>
           match queue g with
           | ev :: q => (mkGen Running q [] (latest g) false false, Yield ev)
           | [] =>
               match latest g with
               | Some ev => (mkGen Running [] [] None false false, Yield ev)
               | None => (mkGen Running [] [] None true false, Pending)
               end
           end
       end.

(** [handler(ev)] *)
Definition handler (c : Config) (g : Gen) (ev : A) : Gen * Output :=
  if waiting g then
    (mkGen (phase g) (queue g) (errorQueue g) None false (aborted g), Yield ev)
  else if latestOnly c then
    (mkGen (phase g) (queue g) (errorQueue g) (Some ev) false (aborted g), Nothing)
  else
    let q := if Z.of_nat (List.length (queue g)) >=? capacity c then tl (queue g) else queue g in
    (mkGen (phase g) (q ++ [ev])%list (errorQueue g) (latest g) false (aborted g), Nothing).

(** [errorHandler] and [abortHandler]: reject the awaiting [next()], or
    push onto [errorQueue]. *)
Definition reject_or_queue (g : Gen) (e : Exn) : Gen * Output :=
  if waiting g then (finish g, Raise e)
  else (mkGen (phase g) (queue g) (errorQueue g ++ [e])%list (latest g) false (aborted g), Nothing).

Definition set_aborted (g : Gen) : Gen :=
  mkGen (phase g) (queue g) (errorQueue g) (latest g) (waiting g) true.

(** One input.  A [next()] or [return()] made while a [next()] is still
    pending is queued by the JavaScript runtime and runs once that one
    settles; [step] does not model that queue: it answers [Pending] and
    drops the request (the properties below never reach that case). *)
Definition step (c : Config) (g : Gen) (i : Input) : Gen * Output :=
  match phase g, i with
  | NotStarted, Next =>
      if aborted g then (finish g, Raise (PlainError aborted_msg))
      else loop_top (mkGen Running [] [] None false false)
  | NotStarted, Return => (finish g, Done)
  | NotStarted, Abort => (set_aborted g, Nothing)
  | NotStarted, _ => (g, Nothing)
  | Running, Next => if waiting g then (g, Pending) else loop_top g
  | Running, Return => if waiting g then (g, Pending) else (finish g, Done)
  | Running, Deliver ev => handler c g ev
  | Running, StreamErr msg => reject_or_queue g (wrap_stream_error msg)
  | Running, Abort =>
      if aborted g then (g, Nothing)
      else reject_or_queue (set_aborted g) (MouseError aborted_msg)
  | Finished, Next | Finished, Return => (g, Done)
  | Finished, Abort => (set_aborted g, Nothing)
  | Finished, _ => (g, Nothing)
  end.

Fixpoint run_gen (c : Config) (g : Gen) (ins : list Input) : Gen :=
  match ins with
  | [] => g
  | i :: rest => run_gen c (fst (step c g i)) rest
  end.

Fixpoint outputs (c : Config) (g : Gen) (ins : list Input) : list Output :=
  match ins with
  | [] => []
  | i :: rest => snd (step c g i) :: outputs c (fst (step c g i)) rest
  end.

End Generator.

Arguments init {A}.
Arguments loop_top {A} g.
Arguments handler {A} c g ev.
Arguments reject_or_queue {A} g e.
Arguments set_aborted {A} g.
Arguments finish {A} g.
Arguments step {A} c g i.
Arguments run_gen {A} c g ins.
Arguments outputs {A} c g ins.
Arguments Next {A}. Arguments Return {A}. Arguments Deliver {A}.
Arguments StreamErr {A}. Arguments Abort {A}.

End Gen.

(** [eventsOf(type, { latestOnly, maxQueue })] *)
Definition eventsOf_config (latestOnly : bool) (maxQueue : Z) : Gen.Config :=
  Gen.mkConfig latestOnly (Z.min maxQueue 1000).

(** [stream({ latestOnly, maxQueue })] *)
Definition stream_config (latestOnly : bool) (maxQueue : Z) : Gen.Config :=
  Gen.mkConfig latestOnly maxQueue.

(** The element [stream] yields: [{ type, event }]. *)
Definition Tagged := (MouseEventAction * MouseEvent)%type.

(** ** Escape-sequence patterns (src/src/parser/constants.ts, lines 13-77) *)

Module Pattern.

(** The regular expressions the patterns use: a literal character, a
    character class, concatenation, a capture group and a bounded greedy
    quantifier [{lo,hi}]. *)
Inductive re :=
  | RChar (c : ascii)
  | RClass (p : ascii -> bool)
  | RCat (r1 r2 : re)
  | RGroup (r : re)
  | RRep (r : re) (lo hi : nat).

(** A backtracking matcher in continuation-passing style, as JavaScript
    regular expressions match: [RRep] is greedy and backtracks one
    repetition at a time; [RGroup] appends the text it consumed to the
    captures. *)
Fixpoint rmatch {R} (r : re) (s : string) (caps : list string)
    (k : list string -> string -> option R) {struct r} : option R :=
  match r with
  | RChar c =>
      match s with
      | String c' t => if Ascii.eqb c c' then k caps t else None
      | EmptyString => None
      end
  | RClass p =>
      match s with
      | String c' t => if p c' then k caps t else None
      | EmptyString => None
      end
  | RCat r1 r2 => rmatch r1 s caps (fun caps' t => rmatch r2 t caps' k)
  | RGroup r1 =>
      rmatch r1 s caps
        (fun caps' t => k (caps' ++ [substring 0 (String.length s - String.length t) s])%list t)
  | RRep r1 lo hi =>
      (fix go (lo hi : nat) (s : string) (caps : list string) {struct hi} : option R :=
         match hi with
         | O => if Nat.eqb lo 0 then k caps s else None
         | S h =>
             match rmatch r1 s caps (fun caps' t => go (Nat.pred lo) h t caps') with
             | Some v => Some v
             | None => if Nat.eqb lo 0 then k caps s else None
             end
         end) lo hi s caps
  end.

(** [^r] applied to [s]: the captures and the number of characters matched. *)
Definition exec (r : re) (s : string) : option (list string * nat) :=
  rmatch r s [] (fun caps t => Some (caps, (String.length s - String.length t)%nat)).

Definition ESC_char : ascii := ascii_of_nat 27.

(** [\d] *)
Definition is_digit (c : ascii) : bool :=
  (Nat.leb 48 (nat_of_ascii c) && Nat.leb (nat_of_ascii c) 57)%nat.

(** [[\x20-\x7f]] *)
Definition is_printable (c : ascii) : bool :=
  (Nat.leb 32 (nat_of_ascii c) && Nat.leb (nat_of_ascii c) 127)%nat.

(** [[Mm]] *)
Definition is_Mm (c : ascii) : bool :=
  Ascii.eqb c "M"%char || Ascii.eqb c "m"%char.

Fixpoint cat (rs : list re) : re :=
  match rs with
  | [] => RRep (RChar "a"%char) 0 0
  | [r] => r
  | r :: rs' => RCat r (cat rs')
  end.

(** [/^\x1b\[<(\d{1,3});(\d{1,4});(\d{1,4})([Mm])/] *)
Definition sgrPattern : re :=
  cat [RChar ESC_char; RChar "["%char; RChar "<"%char;
       RGroup (RRep (RClass is_digit) 1 3); RChar ";"%char;
       RGroup (RRep (RClass is_digit) 1 4); RChar ";"%char;
       RGroup (RRep (RClass is_digit) 1 4);
       RGroup (RClass is_Mm)].

(** [/^\x1b\[M([\x20-\x7f])([\x20-\x7f])([\x20-\x7f])/] *)
Definition escPattern : re :=
  cat [RChar ESC_char; RChar "["%char; RChar "M"%char;
       RGroup (RClass is_printable); RGroup (RClass is_printable);
       RGroup (RClass is_printable)].

(** [MAX_EVENT_LENGTHS] *)
Definition MAX_sgr : nat := 21.
Definition MAX_esc : nat := 6.

End Pattern.

(** ** The decoder [parseMouseEvents]

    Modelled from the spec: src/src/parser/ansiParser.ts is not part of the
    sources; the scanning loop, the button/action decoding and the
    run-length deduplication below follow section 4.1 of the spec, and the
    matching uses the patterns of constants.ts above on a window of at most
    [MAX_EVENT_LENGTHS] characters. *)

Module Decoder.
Import Pattern.

Fixpoint digits_value (s : string) (acc : Z) : Z :=
  match s with
  | EmptyString => acc
  | String c t => digits_value t (acc * 10 + (Z.of_nat (nat_of_ascii c) - 48))
  end.

Definition flag (code bit : Z) : bool := negb (Z.land code bit =? 0).

Definition decode_button (code : Z) : ButtonType :=
  if code =? 128 then BBack
  else if code =? 129 then BForward
  else if flag code 64 then
    if code =? 64 then BWheelUp
    else if code =? 65 then BWheelDown
    else if code =? 66 then BWheelLeft
    else if code =? 67 then BWheelRight
    else BUnknown
  else
    let low := Z.land code 3 in
    if low =? 0 then BLeft
    else if low =? 1 then BMiddle
    else if low =? 2 then BRight
    else BNone.

(** [release] is the [m] terminator (SGR) or the low bits 3. *)
Definition decode_action (code : Z) (release_terminator : bool) : MouseEventAction :=
  if release_terminator then Release
  else if (code =? 128) || (code =? 129) then Press
  else if flag code 64 then Wheel
  else
    let release_class := Z.land code 3 =? 3 in
    if flag code 32 then (if release_class then Move else Drag)
    else (if release_class then Release else Press).

Definition decode (code cx cy : Z) (term_m : bool) (matched : string) (p : Protocol)
  : MouseEvent :=
  {| x := cx; y := cy;
     button := decode_button code;
     action := decode_action code term_m;
     shift := flag code 4; alt := flag code 8; ctrl := flag code 16;
     raw := code; data := matched; protocol := p |}.

Definition char_code (s : string) : Z :=
  match s with
  | String c _ => Z.of_nat (nat_of_ascii c)
  | EmptyString => 0
  end.

Definition decode_match (p : Protocol) (caps : list string) (matched : string)
  : option MouseEvent :=
  match p, caps with
  | SGR, [b; cx; cy; t] =>
      Some (decode (digits_value b 0) (digits_value cx 0) (digits_value cy 0)
                   (String.eqb t "m") matched SGR)
  | ESC, [b; cx; cy] =>
      Some (decode (char_code b - 32) (char_code cx - 32) (char_code cy - 32)
                   false matched ESC)
  | _, _ => None
  end.

(** Try [pattern] at the start of [s], on at most [max] characters. *)
Definition try_at (r : re) (max : nat) (p : Protocol) (s : string)
  : option (MouseEvent * nat) :=
  match exec r (substring 0 max s) with
  | Some (caps, n) =>
      match decode_match p caps (substring 0 n s) with
      | Some ev => Some (ev, n)
      | None => None
      end
  | None => None
  end.

(** The candidate at the start of [s]: [ESC [ <] or [ESC [ M]. *)
Definition candidate (s : string) : option (MouseEvent * nat) :=
  match s with
  | String e (String b (String d _)) =>
      if Ascii.eqb e ESC_char && Ascii.eqb b "["%char then
        if Ascii.eqb d "<"%char then try_at sgrPattern MAX_sgr SGR s
        else if Ascii.eqb d "M"%char then try_at escPattern MAX_esc ESC s
        else None
      else None
  | _ => None
  end.

(** The scan: on a match emit the event unless its text equals the last
    emitted one, and continue after it; otherwise advance one character.
    [last] is the deduplication memory kept across calls. *)
Fixpoint scan (fuel : nat) (s : string) (last : option string)
  : list MouseEvent * option string :=
  match fuel with
  | O => ([], last)
  | S f =>
      match s with
      | EmptyString => ([], last)
      | String _ rest =>
          match candidate s with
          | Some (ev, n) =>
              let after := substring n (String.length s - n) s in
              if match last with Some l => String.eqb l (data ev) | None => false end
              then scan f after last
              else let '(evs, last') := scan f after (Some (data ev)) in (ev :: evs, last')
          | None => scan f rest last
          end
      end
  end.

Definition parseMouseEvents (s : string) (last : option string)
  : list MouseEvent * option string :=
  scan (S (String.length s)) s last.

End Decoder.

(** ** Observations *)

(** The clicks published, in order. *)
Definition clicks_of (t : list Emission) : list MouseEvent :=
  flat_map (fun em => match em with EmitEvent Click c => [c] | _ => [] end) t.

(** The decoded (non-click) events published, in order. *)
Definition decoded_of (t : list Emission) : list MouseEvent :=
  flat_map (fun em => match em with
                      | EmitEvent Click _ | EmitError | Uncaught => []
                      | EmitEvent _ e => [e]
                      end) t.

Definition not_click (e : MouseEvent) : Prop := action e <> Click.

(** [l1] is [l2] with some elements left out, the order kept. *)
Inductive subseq {A : Type} : list A -> list A -> Prop :=
  | subseq_nil : subseq [] []
  | subseq_skip a l1 l2 : subseq l1 l2 -> subseq l1 (a :: l2)
  | subseq_take a l1 l2 : subseq l1 l2 -> subseq (a :: l1) (a :: l2).

(** The releases published, in order. *)
Definition releases_of (t : list Emission) : list MouseEvent :=
  flat_map (fun em => match em with EmitEvent Release r => [r] | _ => [] end) t.

(** Every published click comes after the release it was made from: the
    trace is a sequence of blocks, each a run of publications with no click
    followed by the clicks made from some of that run's releases, one click
    per release and in the order of the releases.  So each click is matched
    to a release of its own, published before it. *)
Inductive clicks_after_releases : list Emission -> Prop :=
  | car_nil : clicks_after_releases []
  | car_block out rs rest :
      clicks_of out = [] ->
      subseq rs (releases_of out) ->
      clicks_after_releases rest ->
      clicks_after_releases (out ++ map (fun r => EmitEvent Click (with_action r Click)) rs ++ rest).

(** Decoding a sequence of ['data'] chunks, with the deduplication memory
    carried from one call to the next. *)
Fixpoint decode_chunks (last : option string) (chunks : list string)
  : list (list MouseEvent) :=
  match chunks with
  | [] => []
  | c :: cs =>
      let '(evs, last') := Decoder.parseMouseEvents c last in
      evs :: decode_chunks last' cs
  end.

Definition ESC_str (s : string) : string := String Pattern.ESC_char s.

(** ** Sample inputs *)

Definition no_event : MouseEvent := mkEvent 0 0 BNone Move false false false 0 "" SGR.

(** Press at (10,20), then release at (11,21), in two chunks. *)
Definition near_chunks : list (list MouseEvent) :=
  decode_chunks None [ESC_str "[<0;10;20M"; ESC_str "[<0;11;21m"].

(** Press at (10,20), press at (50,50), release at (10,20). *)
Definition repress_chunks : list (list MouseEvent) :=
  decode_chunks None [ESC_str "[<0;10;20M"; ESC_str "[<0;50;50M"; ESC_str "[<0;10;20m"].

(** Press at (30,40), release at (31,41). *)
Definition offset_chunks : list (list MouseEvent) :=
  decode_chunks None [ESC_str "[<0;30;40M"; ESC_str "[<0;31;41m"].

(** Press and release at (10,20) delivered in one chunk. *)
Definition pair_chunk : list MouseEvent :=
  fst (Decoder.parseMouseEvents (ESC_str "[<0;10;20M" ++ ESC_str "[<0;10;20m")%string None).

(** Listeners on ['press'] that throw on every event. *)
Definition press_throws : Listeners := mkListeners (fun ch _ => action_eqb ch Press) ErrHandled.

(** The same, with no listener on ['error']. *)
Definition press_throws_unheard : Listeners :=
  mkListeners (fun ch _ => action_eqb ch Press) ErrUnhandled.

(** Press then release at (10,20), in two chunks. *)
Definition same_pos_chunks : list (list MouseEvent) :=
  decode_chunks None [ESC_str "[<0;10;20M"; ESC_str "[<0;10;20m"].

(** An interactive input stream, cooked mode, no encoding set. *)
Definition tty_world : World := mkWorld true false None true false [].

(** A non-interactive input stream. *)
Definition pipe_world : World := mkWorld false false None true false [].

(** [new Mouse()], then [enable()], then [destroy()], then [enable()]. *)
Definition enable_destroy_enable : St * (unit + Exn) :=
  (enable ;; destroy ;; enable) no_faults (new_mouse, tty_world).

(** [n] copies of [x]. *)
Fixpoint replicate {A} (n : nat) (a : A) : list A :=
  match n with O => [] | S k => a :: replicate k a end.

(** [stream] with [maxQueue: 2000]: a first [next()], then 1002 events. *)
Definition stream_2000_run : Gen.Gen Tagged :=
  Gen.run_gen (stream_config false 2000) Gen.init
    (Gen.Next :: replicate 1002 (Gen.Deliver (Press, no_event))).

(** Length of the pending-event queue, as a JS number. *)
Definition qlen {A} (g : Gen.Gen A) : Z := Z.of_nat (List.length (Gen.queue A g)).

Definition producer_input {A} (i : Gen.Input A) : Prop :=
  match i with
  | Gen.Deliver _ | Gen.StreamErr _ | Gen.Abort => True
  | Gen.Next | Gen.Return => False
  end.

Definition cancellation (e : Exn) : Prop :=
  e = MouseError aborted_msg \/ e = PlainError aborted_msg.

(** Live, not awaiting, signal fired. *)
Definition aborted_idle {A} (g : Gen.Gen A) : Prop :=
  Gen.phase A g <> Gen.Finished /\ Gen.waiting A g = false /\ Gen.aborted A g = true.

(** ** SGR reports with malformed fields *)

Fixpoint str_forallb (p : ascii -> bool) (s : string) : bool :=
  match s with
  | EmptyString => true
  | String c t => p c && str_forallb p t
  end.

(** A character of a field: not a separator [;], a terminator [M]/[m] or an ESC. *)
Definition field_char (c : ascii) : bool :=
  negb (Ascii.eqb c ";"%char || Pattern.is_Mm c || Ascii.eqb c Pattern.ESC_char).

(** [ESC [ < fb ; fx ; fy t] *)
Definition sgr_report (fb fx fy : string) (t : ascii) : string :=
  ESC_str ("[<" ++ fb ++ ";" ++ fx ++ ";" ++ fy ++ String t "")%string.

(** A button field longer than 3 characters, a coordinate field longer than
    4, or a non-digit character in one of the fields. *)
Definition malformed_fields (fb fx fy : string) : bool :=
  (3 <? String.length fb)%nat || (4 <? String.length fx)%nat || (4 <? String.length fy)%nat
  || negb (str_forallb Pattern.is_digit (fb ++ fx ++ fy)%string).

(** ** Further observations *)

Definition is_release (e : MouseEvent) : bool := action_eqb (action e) Release.

(** The events [handleEvent]'s click bookkeeping looks at. *)
Definition press_or_release (e : MouseEvent) : bool :=
  action_eqb (action e) Press || action_eqb (action e) Release.

(** A finished generator's answers: nothing, or [{done: true}]. *)
Definition silent {A} (o : Gen.Output A) : Prop := o = Gen.Nothing A \/ o = Gen.Done A.

(** * Properties *)

(** ** handleEvent when no listener throws *)

Lemma handle_loop_quiet_threw lp evs : threw (handle_loop quiet lp evs) = false.
Proof.
  revert lp; induction evs as [|ev rest IH]; intro lp; simpl; [reflexivity|].
  destruct (click_step lp ev) as [lp' t]; apply IH.
Qed.

Lemma handleEvent_throws_quiet lp evs : handleEvent_throws quiet lp evs = false.
Proof. unfold handleEvent_throws; now rewrite handle_loop_quiet_threw. Qed.

Lemma handle_loop_quiet_emitted lp evs :
  emitted (handle_loop quiet lp evs) = map (fun e => EmitEvent (action e) e) evs.
Proof.
  revert lp; induction evs as [|ev rest IH]; intro lp; simpl; [reflexivity|].
  destruct (click_step lp ev) as [lp' t]; simpl; now rewrite IH.
Qed.

Lemma handle_loop_quiet_app lp a b :
  ticks (handle_loop quiet lp (a ++ b))
  = ticks (handle_loop quiet lp a)
    ++ ticks (handle_loop quiet (lastPress_out (handle_loop quiet lp a)) b)
  /\ lastPress_out (handle_loop quiet lp (a ++ b))
     = lastPress_out (handle_loop quiet (lastPress_out (handle_loop quiet lp a)) b).
Proof.
  revert lp; induction a as [|ev rest IH]; intro lp; simpl; [split; reflexivity|].
  destruct (click_step lp ev) as [lp' t]; simpl.
  destruct (IH lp') as [H1 H2]; split; [rewrite H1, app_assoc|]; auto.
Qed.

Lemma drain_ticks_quiet t : drain_ticks quiet t = (map (EmitEvent Click) t, false).
Proof.
  induction t as [|c cs IH]; simpl; [reflexivity|]; now rewrite IH.
Qed.

Lemma clicks_of_app a b : clicks_of (a ++ b) = clicks_of a ++ clicks_of b.
Proof. unfold clicks_of; now rewrite flat_map_app. Qed.

Lemma decoded_of_app a b : decoded_of (a ++ b) = decoded_of a ++ decoded_of b.
Proof. unfold decoded_of; now rewrite flat_map_app. Qed.

Lemma clicks_of_decoded evs :
  Forall not_click evs -> clicks_of (map (fun e => EmitEvent (action e) e) evs) = [].
Proof.
  induction 1 as [|e evs He _ IH]; simpl; [reflexivity|].
  unfold not_click in He; destruct (action e); try contradiction; exact IH.
Qed.

Lemma decoded_of_decoded evs :
  Forall not_click evs -> decoded_of (map (fun e => EmitEvent (action e) e) evs) = evs.
Proof.
  induction 1 as [|e evs He _ IH]; simpl; [reflexivity|].
  unfold not_click in He; destruct (action e); try contradiction; simpl; f_equal; exact IH.
Qed.

Lemma clicks_of_ticks t : clicks_of (map (EmitEvent Click) t) = t.
Proof. induction t; simpl; congruence. Qed.

Lemma decoded_of_ticks t : decoded_of (map (EmitEvent Click) t) = [].
Proof. induction t; simpl; auto. Qed.

(** With quiet listeners, the clicks published over a run of chunks are
    the clicks scheduled by one loop over all decoded events. *)
Lemma run_quiet_clicks lp chunks :
  Forall not_click (List.concat chunks) ->
  clicks_of (run quiet lp chunks) = ticks (handle_loop quiet lp (List.concat chunks)).
Proof.
  revert lp; induction chunks as [|c cs IH]; intros lp Hnc; simpl; [reflexivity|].
  apply Forall_app in Hnc as [Hc Hcs].
  rewrite handleEvent_throws_quiet.
  unfold handleEvent; rewrite handle_loop_quiet_threw, drain_ticks_quiet.
  rewrite !clicks_of_app, handle_loop_quiet_emitted, clicks_of_decoded by exact Hc.
  rewrite clicks_of_ticks; simpl.
  destruct (handle_loop_quiet_app lp c (List.concat cs)) as [H1 _].
  rewrite H1, IH by exact Hcs; reflexivity.
Qed.

Lemma run_quiet_decoded lp chunks :
  Forall not_click (List.concat chunks) ->
  decoded_of (run quiet lp chunks) = List.concat chunks.
Proof.
  revert lp; induction chunks as [|c cs IH]; intros lp Hnc; simpl; [reflexivity|].
  apply Forall_app in Hnc as [Hc Hcs].
  rewrite handleEvent_throws_quiet.
  unfold handleEvent; rewrite handle_loop_quiet_threw, drain_ticks_quiet.
  rewrite !decoded_of_app, handle_loop_quiet_emitted, decoded_of_decoded by exact Hc.
  rewrite decoded_of_ticks, IH by exact Hcs; simpl; now rewrite app_nil_r.
Qed.

(** Over events that are neither presses nor releases, the pending press
    is kept and no click is scheduled. *)
Lemma handle_loop_quiet_neutral lp mid :
  Forall (fun e => action e <> Press /\ action e <> Release) mid ->
  ticks (handle_loop quiet lp mid) = [] /\ lastPress_out (handle_loop quiet lp mid) = lp.
Proof.
  intro H; revert lp; induction H as [|e mid [Hp Hr] _ IH]; intro lp; simpl; [auto|].
  unfold click_step; destruct (action e); try contradiction; simpl; apply IH.
Qed.

Lemma handle_loop_quiet_press lp pre p :
  action p = Press -> lastPress_out (handle_loop quiet lp (pre ++ [p])) = Some p.
Proof.
  intro Hp; destruct (handle_loop_quiet_app lp pre [p]) as [_ H]; rewrite H; simpl.
  unfold click_step; rewrite Hp; reflexivity.
Qed.

Lemma close_enough_max dx dy :
  (dx <=? 1) && (dy <=? 1) = (Z.max dx dy <=? 1).
Proof.
  destruct (Z.max dx dy <=? 1) eqn:E.
  - apply Z.leb_le, Z.max_lub_iff in E as [E1 E2].
    now rewrite (proj2 (Z.leb_le _ _) E1), (proj2 (Z.leb_le _ _) E2).
  - apply Z.leb_gt in E; apply andb_false_iff.
    destruct (Z.max_spec dx dy) as [[_ Hm] | [_ Hm]]; rewrite Hm in E;
      [right | left]; apply Z.leb_gt; exact E.
Qed.

(** C1 (amended).  A decoded press [p] followed by a decoded release [r],
    with neither a press nor a release in between, and no listener
    throwing: processing [r] publishes exactly one click, [r] itself with
    action [click] (so [r]'s coordinates and button), when
    [max(|x-x0|, |y-y0|)] is at most the click distance threshold at its
    default 1 (the only value [handleEvent] supports, see C3), and none
    otherwise; the chunk boundaries do not matter. *)
Theorem click_synthesis_pair lp chunks pre p mid r post :
  Forall not_click (List.concat chunks) ->
  List.concat chunks = pre ++ p :: mid ++ r :: post ->
  action p = Press -> action r = Release ->
  Forall (fun e => action e <> Press /\ action e <> Release) mid ->
  clicks_of (run quiet lp chunks)
  = clicks_of (run quiet lp [pre ++ p :: mid])
    ++ (if Z.max (Z.abs (x r - x p)) (Z.abs (y r - y p)) <=? 1
        then [with_action r Click] else [])
    ++ clicks_of (run quiet None [post]).
Proof.
  intros Hnc Hsplit Hp Hr Hmid.
  rewrite Hsplit in Hnc.
  assert (Hnc' := Hnc); apply Forall_app in Hnc' as [Hpre Hrest].
  inversion Hrest as [|? ? Hpc Hrest']; subst.
  apply Forall_app in Hrest' as [Hmidc Hrpost]; inversion Hrpost as [|? ? _ Hpost]; subst.
  rewrite (run_quiet_clicks lp chunks) by (rewrite Hsplit; exact Hnc).
  rewrite (run_quiet_clicks lp [pre ++ p :: mid]).
  2:{ simpl; rewrite app_nil_r; apply Forall_app; split; [exact Hpre|constructor; auto]. }
  rewrite (run_quiet_clicks None [post]) by (simpl; rewrite app_nil_r; exact Hpost).
  simpl; rewrite !app_nil_r, Hsplit.
  replace (pre ++ p :: mid ++ r :: post) with ((pre ++ p :: mid) ++ r :: post)
    by (rewrite <- app_assoc; reflexivity).
  destruct (handle_loop_quiet_app lp (pre ++ p :: mid) (r :: post)) as [H1 _].
  rewrite H1; f_equal.
  replace (pre ++ p :: mid) with ((pre ++ [p]) ++ mid) by (rewrite <- app_assoc; reflexivity).
  destruct (handle_loop_quiet_app lp (pre ++ [p]) mid) as [_ H2]; rewrite H2.
  rewrite handle_loop_quiet_press by exact Hp.
  destruct (handle_loop_quiet_neutral (Some p) mid Hmid) as [_ H3]; rewrite H3.
  simpl; unfold click_step; rewrite Hr, close_enough_max.
  destruct (Z.max _ _ <=? 1); reflexivity.
Qed.

Lemma click_synthesis_pair_witness :
  clicks_of (run quiet None near_chunks)
  = clicks_of (run quiet None [[] ++ nth 0 (List.concat near_chunks) no_event :: []])
    ++ (if Z.max (Z.abs (x (nth 1 (List.concat near_chunks) no_event)
                         - x (nth 0 (List.concat near_chunks) no_event)))
                 (Z.abs (y (nth 1 (List.concat near_chunks) no_event)
                         - y (nth 0 (List.concat near_chunks) no_event))) <=? 1
        then [with_action (nth 1 (List.concat near_chunks) no_event) Click] else [])
    ++ clicks_of (run quiet None [[]]).
Proof.
  apply click_synthesis_pair.
  - vm_compute; repeat constructor; discriminate.
  - vm_compute; reflexivity.
  - vm_compute; reflexivity.
  - vm_compute; reflexivity.
  - constructor.
Defined.

(** C1 as stated fails: the press at (10,20) is followed by the release at
    (10,20) with no release in between and distance 0, yet no click is
    published, because the second press at (50,50) replaced the pending
    press. *)
Lemma click_synthesis_pair_counterexample :
  action (nth 0 (List.concat repress_chunks) no_event) = Press
  /\ action (nth 1 (List.concat repress_chunks) no_event) <> Release
  /\ action (nth 2 (List.concat repress_chunks) no_event) = Release
  /\ (Z.max (Z.abs (x (nth 2 (List.concat repress_chunks) no_event)
                    - x (nth 0 (List.concat repress_chunks) no_event)))
            (Z.abs (y (nth 2 (List.concat repress_chunks) no_event)
                    - y (nth 0 (List.concat repress_chunks) no_event))) <=? 1) = true
  /\ clicks_of (run quiet None repress_chunks) = [].
Proof.
  vm_compute; repeat split; try reflexivity; discriminate.
Qed.

(** ** A listener that throws *)

Lemma handle_loop_throw (l : Listeners) lp pre e post :
  Forall (fun ev => l (action ev) ev = false) pre -> l (action e) e = true ->
  handle_loop l lp (pre ++ e :: post)
  = mkLoop (map (fun ev => EmitEvent (action ev) ev) pre ++ [EmitEvent (action e) e])
           (ticks (handle_loop l lp pre)) (lastPress_out (handle_loop l lp pre)) true.
Proof.
  intros Hpre He; revert lp; induction Hpre as [|ev pre Hev _ IH]; intro lp; simpl.
  - now rewrite He.
  - rewrite Hev; destruct (click_step lp ev) as [lp' t]; rewrite IH; reflexivity.
Qed.

(** C6 (amended).  When a listener throws while the event [e] of a chunk
    is dispatched, [handleEvent] republishes the exception on ['error']
    right after it; the events of the chunk after [e] are not dispatched;
    the clicks scheduled before [e] stay scheduled, and the pending press
    is the one left by the events before [e] ([e] itself does not update
    it).  If the ['error'] emission returns (an ['error'] listener took it),
    the scheduled clicks are published and [run] goes on with the next
    chunk from that pending press; if it throws (no ['error'] listener, or
    one that throws), the exception leaves the ['data'] callback uncaught
    and nothing more is published. *)
Theorem dispatch_error_isolation (l : Listeners) lp pre e post cs :
  Forall (fun ev => l (action ev) ev = false) pre -> l (action e) e = true ->
  handleEvent l lp (pre ++ e :: post)
  = (map (fun ev => EmitEvent (action ev) ev) pre ++ EmitEvent (action e) e :: error_emissions (on_error l),
     ticks (handle_loop l lp pre), lastPress_out (handle_loop l lp pre))
  /\ handleEvent_throws l lp (pre ++ e :: post) = error_rethrows (on_error l)
  /\ run l lp ((pre ++ e :: post) :: cs)
     = map (fun ev => EmitEvent (action ev) ev) pre ++ EmitEvent (action e) e :: error_emissions (on_error l)
       ++ (if error_rethrows (on_error l) then []
           else let '(clicks, crashed) := drain_ticks l (ticks (handle_loop l lp pre)) in
                clicks ++ (if crashed then [] else run l (lastPress_out (handle_loop l lp pre)) cs)).
Proof.
  intros Hpre He.
  assert (Hh : handleEvent l lp (pre ++ e :: post)
               = (map (fun ev => EmitEvent (action ev) ev) pre ++ EmitEvent (action e) e :: error_emissions (on_error l),
                  ticks (handle_loop l lp pre), lastPress_out (handle_loop l lp pre))).
  { unfold handleEvent; rewrite (handle_loop_throw l lp pre e post Hpre He).
    cbn [emitted threw ticks lastPress_out]; now rewrite <- app_assoc. }
  assert (Ht : handleEvent_throws l lp (pre ++ e :: post) = error_rethrows (on_error l)).
  { unfold handleEvent_throws; now rewrite (handle_loop_throw l lp pre e post Hpre He). }
  split; [exact Hh | split; [exact Ht|]].
  cbn [run]; rewrite Hh, Ht.
  destruct (error_rethrows (on_error l)); [now rewrite app_nil_r|].
  destruct (drain_ticks l (ticks (handle_loop l lp pre))) as [clicks crashed].
  rewrite <- app_assoc; reflexivity.
Qed.

Lemma dispatch_error_isolation_witness :
  let e := nth 0 pair_chunk no_event in
  let post := [nth 1 pair_chunk no_event] in
  handleEvent press_throws_unheard None ([] ++ e :: post)
  = (map (fun ev => EmitEvent (action ev) ev) [] ++ EmitEvent (action e) e
       :: error_emissions (on_error press_throws_unheard),
     ticks (handle_loop press_throws_unheard None []),
     lastPress_out (handle_loop press_throws_unheard None []))
  /\ handleEvent_throws press_throws_unheard None ([] ++ e :: post)
     = error_rethrows (on_error press_throws_unheard)
  /\ run press_throws_unheard None (([] ++ e :: post) :: near_chunks)
     = map (fun ev => EmitEvent (action ev) ev) [] ++ EmitEvent (action e) e
         :: error_emissions (on_error press_throws_unheard)
       ++ (if error_rethrows (on_error press_throws_unheard) then []
           else let '(clicks, crashed) :=
                  drain_ticks press_throws_unheard (ticks (handle_loop press_throws_unheard None [])) in
                clicks ++ (if crashed then []
                           else run press_throws_unheard
                                  (lastPress_out (handle_loop press_throws_unheard None [])) near_chunks)).
Proof.
  intros e post; apply dispatch_error_isolation.
  - constructor.
  - vm_compute; reflexivity.
Defined.

(** C6 as stated fails: the chunk holds a press and a release at (10,20);
    the ['press'] listener throws, and the release is never dispatched nor
    used for click synthesis.  With no ['error'] listener, the exception
    even leaves the ['data'] callback, and the later chunks (a press and a
    release) are never processed. *)
Lemma dispatch_error_isolation_counterexample :
  List.length pair_chunk = 2%nat
  /\ action (nth 1 pair_chunk no_event) = Release
  /\ fst (fst (handleEvent press_throws None pair_chunk))
     = [EmitEvent Press (nth 0 pair_chunk no_event); EmitError]
  /\ snd (fst (handleEvent press_throws None pair_chunk)) = []
  /\ List.length (List.concat near_chunks) = 2%nat
  /\ run press_throws_unheard None (pair_chunk :: near_chunks)
     = [EmitEvent Press (nth 0 pair_chunk no_event); Uncaught].
Proof.
  vm_compute; repeat split; reflexivity.
Qed.

(** ** Publication order *)

Lemma subseq_nil_l {A} (l : list A) : subseq [] l.
Proof. induction l; constructor; auto. Qed.

Lemma subseq_app {A} (a b c d : list A) : subseq a b -> subseq c d -> subseq (a ++ c) (b ++ d).
Proof.
  induction 1; intro Hcd; simpl; [exact Hcd | apply subseq_skip | apply subseq_take]; auto.
Qed.

Lemma subseq_firstn {A} k (l : list A) : subseq (firstn k l) l.
Proof.
  revert k; induction l as [|a l IH]; intros [|k]; simpl.
  - constructor.
  - constructor.
  - apply subseq_nil_l.
  - apply subseq_take, IH.
Qed.

Lemma in_firstn {A} k (l : list A) a : In a (firstn k l) -> In a l.
Proof. intro H; rewrite <- (firstn_skipn k l); apply in_or_app; left; exact H. Qed.

Lemma handle_loop_emitted_prefix l lp evs :
  exists k, emitted (handle_loop l lp evs) = map (fun e => EmitEvent (action e) e) (firstn k evs).
Proof.
  revert lp; induction evs as [|ev rest IH]; intro lp; simpl.
  - exists 0%nat; reflexivity.
  - destruct (l (action ev) ev).
    + exists 1%nat; reflexivity.
    + destruct (click_step lp ev) as [lp' t]; destruct (IH lp') as [k Hk].
      exists (S k); simpl; now rewrite Hk.
Qed.

Lemma Forall_firstn {A} (P : A -> Prop) k l : Forall P l -> Forall P (firstn k l).
Proof.
  intro H; apply Forall_forall; intros a Ha.
  exact (proj1 (Forall_forall _ _) H a (in_firstn _ _ _ Ha)).
Qed.

Lemma subseq_trans {A} (a b c : list A) : subseq a b -> subseq b c -> subseq a c.
Proof.
  intros Hab Hbc; revert a Hab; induction Hbc as [|x l1 l2 _ IH|x l1 l2 _ IH]; intros a Hab.
  - exact Hab.
  - apply subseq_skip, IH, Hab.
  - inversion Hab; subst; [apply subseq_skip | apply subseq_take]; apply IH; assumption.
Qed.

Lemma firstn_map' {A B} (f : A -> B) k l : firstn k (map f l) = map f (firstn k l).
Proof. revert k; induction l as [|a l IH]; intros [|k]; simpl; auto; now rewrite IH. Qed.

Lemma releases_of_app a b : releases_of (a ++ b) = releases_of a ++ releases_of b.
Proof. unfold releases_of; now rewrite flat_map_app. Qed.

(** The clicks scheduled by the loop are made from releases it published. *)
Lemma handle_loop_ticks_emitted (l : Listeners) lp evs :
  exists rs, subseq rs (releases_of (emitted (handle_loop l lp evs)))
             /\ ticks (handle_loop l lp evs) = map (fun r => with_action r Click) rs.
Proof.
  revert lp; induction evs as [|ev rest IH]; intro lp; simpl.
  - exists []; split; [constructor | reflexivity].
  - destruct (l (action ev) ev); simpl.
    + exists []; split; [apply subseq_nil_l | reflexivity].
    + destruct (click_step lp ev) as [lp' t] eqn:Hstep; simpl.
      destruct (IH lp') as [rs [Hsub Ht]]; rewrite Ht.
      unfold click_step in Hstep; destruct (action ev) eqn:Ha; simpl.
      all: try (injection Hstep as _ <-; exists rs;
                split; [first [apply subseq_skip; exact Hsub | exact Hsub] | reflexivity]).
      destruct lp as [p|]; [destruct (_ && _)|]; injection Hstep as _ <-.
      * exists (ev :: rs); split; [apply subseq_take; exact Hsub | reflexivity].
      * exists rs; split; [apply subseq_skip; exact Hsub | reflexivity].
      * exists rs; split; [apply subseq_skip; exact Hsub | reflexivity].
Qed.

Lemma drain_ticks_prefix (l : Listeners) t :
  exists k, fst (drain_ticks l t) = map (EmitEvent Click) (firstn k t).
Proof.
  induction t as [|c cs IH]; simpl.
  - exists 0%nat; reflexivity.
  - destruct (l Click c).
    + exists 1%nat; reflexivity.
    + destruct (drain_ticks l cs) as [out cr]; destruct IH as [k Hk]; simpl in Hk.
      exists (S k); simpl; now rewrite Hk.
Qed.

Lemma error_emissions_quiet o :
  clicks_of (error_emissions o) = [] /\ decoded_of (error_emissions o) = []
  /\ releases_of (error_emissions o) = [].
Proof. destruct o; repeat split. Qed.

Lemma run_order (l : Listeners) lp chunks :
  Forall not_click (List.concat chunks) ->
  subseq (decoded_of (run l lp chunks)) (List.concat chunks)
  /\ clicks_after_releases (run l lp chunks).
Proof.
  revert lp; induction chunks as [|c cs IH]; intros lp Hnc; simpl.
  - split; [constructor | exact car_nil].
  - apply Forall_app in Hnc as [Hc Hcs].
    destruct (handle_loop_emitted_prefix l lp c) as [k Hk].
    destruct (handle_loop_ticks_emitted l lp c) as [rs [Hrs Ht]].
    destruct (error_emissions_quiet (on_error l)) as (Ec & Ed & Er).
    set (out := emitted (handle_loop l lp c)
                ++ (if threw (handle_loop l lp c) then error_emissions (on_error l) else [])).
    assert (Hout_c : clicks_of out = []).
    { unfold out; rewrite clicks_of_app, Hk, clicks_of_decoded by (apply Forall_firstn, Hc).
      destruct (threw _); [exact Ec | reflexivity]. }
    assert (Hout_d : decoded_of out = firstn k c).
    { unfold out; rewrite decoded_of_app, Hk, decoded_of_decoded by (apply Forall_firstn, Hc).
      destruct (threw _); [rewrite Ed | ]; apply app_nil_r. }
    assert (Hout_r : releases_of out = releases_of (emitted (handle_loop l lp c))).
    { unfold out; rewrite releases_of_app; destruct (threw _); [rewrite Er|]; apply app_nil_r. }
    unfold handleEvent; fold out.
    destruct (handleEvent_throws l lp c).
    + split.
      * rewrite Hout_d, <- (app_nil_r (firstn k c)).
        apply subseq_app; [apply subseq_firstn | apply subseq_nil_l].
      * replace out with (out ++ map (fun r => EmitEvent Click (with_action r Click)) [] ++ [])
          by (simpl; apply app_nil_r).
        apply car_block; [exact Hout_c | apply subseq_nil_l | exact car_nil].
    + destruct (drain_ticks l (ticks (handle_loop l lp c))) as [clicks crashed] eqn:Hd.
      destruct (drain_ticks_prefix l (ticks (handle_loop l lp c))) as [j Hj].
      rewrite Hd in Hj; simpl in Hj.
      assert (Hrest : subseq (decoded_of (if crashed then [] else run l (lastPress_out (handle_loop l lp c)) cs))
                             (List.concat cs)
                      /\ clicks_after_releases
                           (if crashed then [] else run l (lastPress_out (handle_loop l lp c)) cs)).
      { destruct crashed; [split; [apply subseq_nil_l | exact car_nil] | apply IH, Hcs]. }
      destruct Hrest as [Hsub Hcar].
      assert (Hcl : clicks = map (fun r => EmitEvent Click (with_action r Click)) (firstn j rs)).
      { rewrite Hj, Ht, firstn_map', map_map; reflexivity. }
      split.
      * rewrite !decoded_of_app, Hout_d, Hcl.
        rewrite <- (map_map (fun r => with_action r Click) (EmitEvent Click)), decoded_of_ticks.
        simpl; apply subseq_app; [apply subseq_firstn | exact Hsub].
      * rewrite Hcl; apply car_block; [exact Hout_c | | exact Hcar].
        rewrite Hout_r; apply (subseq_trans _ rs); [apply subseq_firstn | exact Hrs].
Qed.

(** C9.  Within one Mouse, for any listeners: the decoded events are
    published in decode order (a subsequence of the decoded events, the
    whole of it when no listener throws), and every published click comes
    after the publication of its own triggering release: clicks are matched
    one to one, in order, to earlier releases of their chunk (the click is
    published from the [process.nextTick] queue, after the chunk). *)
Theorem publication_order l lp chunks :
  Forall not_click (List.concat chunks) ->
  subseq (decoded_of (run l lp chunks)) (List.concat chunks)
  /\ decoded_of (run quiet lp chunks) = List.concat chunks
  /\ clicks_after_releases (run l lp chunks).
Proof.
  intro Hnc; destruct (run_order l lp chunks Hnc) as [H1 H2].
  split; [exact H1 | split; [apply run_quiet_decoded, Hnc | exact H2]].
Qed.

Lemma publication_order_witness :
  subseq (decoded_of (run press_throws None (pair_chunk :: near_chunks)))
         (List.concat (pair_chunk :: near_chunks))
  /\ decoded_of (run quiet None (pair_chunk :: near_chunks)) = List.concat (pair_chunk :: near_chunks)
  /\ clicks_after_releases (run press_throws None (pair_chunk :: near_chunks)).
Proof.
  apply publication_order.
  vm_compute; repeat constructor; discriminate.
Defined.

(** ** No pause gate, no configurable threshold *)

(** C2 (code bug).  The Mouse of Mouse.ts has no [paused] state and no
    [pause]/[resume]/[isPaused] method: [handleEvent] publishes every
    decoded event and pairs every press with the next release, whatever the
    caller did between the two chunks. *)
Theorem no_pause_gate :
  run quiet None same_pos_chunks
  = [EmitEvent Press (nth 0 (List.concat same_pos_chunks) no_event);
     EmitEvent Release (nth 1 (List.concat same_pos_chunks) no_event);
     EmitEvent Click (with_action (nth 1 (List.concat same_pos_chunks) no_event) Click)].
Proof. vm_compute; reflexivity. Qed.

(** C3 (code bug).  The constructor takes no options and [handleEvent]
    compares with the constant 1: a press at (30,40) and a release at
    (31,41) publish a click, which [clickDistanceThreshold: 0] is documented
    (options.ts) and tested (Mouse.test.ts) to prevent. *)
Theorem threshold_fixed_at_one :
  clicks_of (run quiet None offset_chunks)
  = [with_action (nth 1 (List.concat offset_chunks) no_event) Click]
  /\ x (nth 1 (List.concat offset_chunks) no_event) = 31
  /\ y (nth 1 (List.concat offset_chunks) no_event) = 41.
Proof. vm_compute; repeat split; reflexivity. Qed.

(** ** Lifecycle *)

Lemma disable_disables f s : enabled (fst (fst (disable f s))) = false.
Proof.
  destruct s as [m w]; unfold disable, bind, get_mouse; simpl.
  destruct (enabled m) eqn:He; simpl; [|exact He].
  unfold try_finally.
  destruct (try_catch _ _ f (m, w)) as [s1 r1]; simpl; reflexivity.
Qed.

Lemma try_catch_rollback {A} (m : M A) f s s' e :
  try_catch m (fun err => m' <- get_mouse ;; put_mouse (set_enabled false m') ;;
                          throw (MouseErrorFrom ("Failed to enable mouse: " ++ message err) err))
    f s = (s', inr e) ->
  enabled (fst s') = false.
Proof.
  unfold try_catch; destruct (m f s) as [s1 [v|e1]]; [discriminate|].
  intro H; injection H as <- _; reflexivity.
Qed.

(** C5.  A failing [enable()] returns its error from the call itself and
    leaves the Mouse disabled (the non-TTY check throws before anything is
    set, a failing stream call is caught and [enabled] rolled back); a
    failing [disable()] returns its error from the call and leaves the Mouse
    disabled (the [finally]). *)
Theorem lifecycle_errors_leave_disabled :
  (forall f s s' e, enable f s = (s', inr e) -> enabled (fst s') = false)
  /\ (forall f s s' e, disable f s = (s', inr e) -> enabled (fst s') = false).
Proof.
  split.
  - intros f [m w] s' e H; unfold enable in H.
    unfold bind at 1, get_mouse at 1 in H; cbv beta iota in H; cbn [fst snd] in H.
    destruct (enabled m) eqn:He; [discriminate|].
    unfold bind at 1, get_world at 1 in H; cbv beta iota in H; cbn [fst snd] in H.
    destruct (isTTY w); cbn [negb] in H.
    + eapply try_catch_rollback; exact H.
    + unfold throw in H; injection H as <- _; exact He.
  - intros f s s' e H; rewrite <- (disable_disables f s), H; reflexivity.
Qed.

Lemma lifecycle_errors_leave_disabled_witness :
  enabled (fst (fst (enable no_faults (new_mouse, pipe_world)))) = false
  /\ enabled (fst (fst (disable (fun op => match op with OpWrite _ => Some "Write failed"%string | _ => None end)
                          (fst (enable no_faults (new_mouse, tty_world)))))) = false.
Proof.
  split.
  - apply (proj1 lifecycle_errors_leave_disabled no_faults (new_mouse, pipe_world)
             (fst (enable no_faults (new_mouse, pipe_world)))
             (PlainError "Mouse events require a TTY input stream")).
    vm_compute; reflexivity.
  - apply (proj2 lifecycle_errors_leave_disabled
             (fun op => match op with OpWrite _ => Some "Write failed"%string | _ => None end)
             (fst (enable no_faults (new_mouse, tty_world)))
             _ (MouseErrorFrom "Failed to disable mouse: Write failed" (PlainError "Write failed"))).
    vm_compute; reflexivity.
Defined.

Lemma destroy_disables f s : enabled (fst (fst (destroy f s))) = false.
Proof.
  unfold destroy, bind.
  destruct (disable f s) as [s1 [u|e]] eqn:Hd.
  - unfold removeAllListeners, bind, get_mouse, put_mouse; simpl.
    rewrite <- (disable_disables f s), Hd; reflexivity.
  - rewrite <- (disable_disables f s), Hd; reflexivity.
Qed.

Lemma destroy_ok_state f s s1 :
  destroy f s = (s1, inl tt) -> enabled (fst s1) = false /\ subscribed (fst s1) = [].
Proof.
  intro H; split; [rewrite <- (destroy_disables f s), H; reflexivity|].
  unfold destroy, bind in H.
  destruct (disable f s) as [s0 [u|e]]; [|discriminate].
  unfold removeAllListeners, bind, get_mouse, put_mouse in H; simpl in H.
  injection H as <-; reflexivity.
Qed.

Lemma destroy_idle f m w :
  enabled m = false -> subscribed m = [] -> destroy f (m, w) = ((m, w), inl tt).
Proof.
  destruct m as [en pe pr lp sub]; simpl; intros -> ->; reflexivity.
Qed.

Lemma enable_after_destroy s :
  isTTY (snd s) = true -> isEnabled (fst (enable no_faults (fst (destroy no_faults s)))) = true.
Proof.
  destruct s as [[en pe pr lp sub] [tty raw enc ps dl wr]]; simpl; intros ->.
  destruct en, pe, pr as [[|]|]; reflexivity.
Qed.

(** C4 (amended).  [destroy()] runs [disable()] and then removes every
    listener: it always leaves the Mouse disabled; once it has succeeded,
    calling it again changes nothing; and it is not terminal: on an
    interactive input, a later [enable()] enables the Mouse again. *)
Theorem destroy_disables_idempotent_not_terminal :
  (forall f s, enabled (fst (fst (destroy f s))) = false)
  /\ (forall f s s1, destroy f s = (s1, inl tt) -> destroy f s1 = (s1, inl tt))
  /\ (forall s, isTTY (snd s) = true ->
                isEnabled (fst (enable no_faults (fst (destroy no_faults s)))) = true).
Proof.
  split; [exact destroy_disables|split].
  - intros f s [m w] H; destruct (destroy_ok_state f s (m, w) H) as [H1 H2].
    exact (destroy_idle f m w H1 H2).
  - exact enable_after_destroy.
Qed.

Lemma destroy_disables_idempotent_not_terminal_witness :
  destroy no_faults (fst (destroy no_faults (fst (enable no_faults (new_mouse, tty_world)))))
  = (fst (destroy no_faults (fst (enable no_faults (new_mouse, tty_world)))), inl tt)
  /\ isEnabled (fst (enable no_faults (fst (destroy no_faults (new_mouse, tty_world))))) = true.
Proof.
  split.
  - apply (proj1 (proj2 destroy_disables_idempotent_not_terminal) no_faults
             (fst (enable no_faults (new_mouse, tty_world)))).
    vm_compute; reflexivity.
  - apply (proj2 (proj2 destroy_disables_idempotent_not_terminal)).
    reflexivity.
Defined.

(** C4 as stated fails: after [enable(); destroy()], a further [enable()]
    on the same interactive input succeeds and [isEnabled()] is true. *)
Lemma destroy_terminal_counterexample :
  snd enable_destroy_enable = inl tt /\ isEnabled (fst enable_destroy_enable) = true.
Proof. vm_compute; split; reflexivity. Qed.

(** ** The generators' queue *)

Section GenProps.
Variable A : Type.
Implicit Types (c : Gen.Config) (g : Gen.Gen A).

Lemma loop_top_queue g : (List.length (Gen.queue A (fst (Gen.loop_top g))) <= List.length (Gen.queue A g))%nat.
Proof.
  unfold Gen.loop_top; destruct (Gen.aborted A g); simpl; [lia|].
  destruct (Gen.errorQueue A g); simpl; [|lia].
  destruct (Gen.queue A g); simpl; [|lia].
  destruct (Gen.latest A g); simpl; lia.
Qed.

Lemma handler_queue c g ev :
  qlen g <= Z.max 1 (Gen.capacity c) ->
  qlen (fst (Gen.handler c g ev)) <= Z.max 1 (Gen.capacity c).
Proof.
  unfold qlen, Gen.handler; intro H.
  destruct (Gen.waiting A g); simpl; [exact H|].
  destruct (Gen.latestOnly c); simpl; [exact H|].
  rewrite length_app; simpl.
  destruct (Z.of_nat (List.length (Gen.queue A g)) >=? Gen.capacity c) eqn:E.
  - destruct (Gen.queue A g) as [|a q]; simpl in *; lia.
  - rewrite Z.geb_leb in E; apply Z.leb_gt in E; lia.
Qed.

Lemma step_queue c g i :
  qlen g <= Z.max 1 (Gen.capacity c) ->
  qlen (fst (Gen.step c g i)) <= Z.max 1 (Gen.capacity c).
Proof.
  intro H; unfold qlen in *.
  assert (Hlt : forall g', (List.length (Gen.queue A g') <= List.length (Gen.queue A g))%nat ->
                           Z.of_nat (List.length (Gen.queue A g')) <= Z.max 1 (Gen.capacity c)) by lia.
  unfold Gen.step; destruct (Gen.phase A g), i; simpl;
    try (apply Hlt; simpl; lia);
    try (apply handler_queue; exact H).
  all: unfold Gen.reject_or_queue, Gen.set_aborted, Gen.finish;
    repeat (match goal with |- context [if ?b then _ else _] => destruct b end; simpl);
    try (apply Hlt; simpl; lia).
  - lia.
  - apply Hlt, loop_top_queue.
Qed.

Lemma run_gen_queue c g ins :
  qlen g <= Z.max 1 (Gen.capacity c) ->
  qlen (Gen.run_gen c g ins) <= Z.max 1 (Gen.capacity c).
Proof.
  revert g; induction ins as [|i rest IH]; intros g H; simpl; [exact H|].
  apply IH, step_queue, H.
Qed.

End GenProps.

(** For [eventsOf], whatever [maxQueue] is requested and whatever happens
    to the generator, its queue never holds more than
    [max(1, min(maxQueue, 1000))] events: the capacity is clamped to 1000,
    and the newest event is always appended, so a [maxQueue] of 0 or less
    still buffers one event. *)
Lemma eventsOf_queue_bounded latestOnly maxQueue (ins : list (Gen.Input MouseEvent)) :
  qlen (Gen.run_gen (eventsOf_config latestOnly maxQueue) Gen.init ins)
  <= Z.max 1 (Z.min maxQueue 1000).
Proof.
  apply (run_gen_queue MouseEvent (eventsOf_config latestOnly maxQueue)); unfold qlen; simpl; lia.
Qed.

(** C7.  The ceiling of 1000 holds for [eventsOf] only: [stream] uses
    [maxQueue] as given, so [stream({ maxQueue: 2000 })], pulled once and
    then sent 1002 events, buffers 1001 of them, while [eventsOf] with the
    same [maxQueue] never buffers more than 1000. *)
Theorem stream_queue_exceeds_ceiling :
  qlen stream_2000_run = 1001
  /\ forall latestOnly (ins : list (Gen.Input MouseEvent)),
       qlen (Gen.run_gen (eventsOf_config latestOnly 2000) Gen.init ins) <= 1000.
Proof.
  split; [vm_compute; reflexivity|].
  intros lo ins; pose proof (eventsOf_queue_bounded lo 2000 ins); lia.
Qed.

(** ** Cancellation between pulls *)

(** What the producer side does to a generator: events, stream errors and
    the signal; no [next()] and no [return()]. *)
Section Cancel.
Variable A : Type.
Implicit Types (c : Gen.Config) (g : Gen.Gen A).

Lemma aborted_idle_step c g i :
  aborted_idle g -> producer_input i -> aborted_idle (fst (Gen.step c g i)).
Proof.
  intros (Hp & Hw & Ha) Hi; unfold Gen.step.
  destruct (Gen.phase A g) eqn:Ep; [| |contradiction];
    destruct i; try contradiction; simpl; unfold aborted_idle;
    unfold Gen.handler, Gen.reject_or_queue, Gen.set_aborted; rewrite ?Hw, ?Ha;
    try destruct (Gen.latestOnly c); simpl; rewrite ?Ep, ?Hw, ?Ha;
    repeat split; auto; discriminate.
Qed.

Lemma aborted_idle_run c g ins :
  aborted_idle g -> Forall producer_input ins -> aborted_idle (Gen.run_gen c g ins).
Proof.
  intros Hg Hins; revert g Hg; induction Hins as [|i ins Hi _ IH]; intros g Hg; simpl; auto.
  apply IH, aborted_idle_step; assumption.
Qed.

Lemma aborted_idle_next c g :
  aborted_idle g -> exists e, snd (Gen.step c g Gen.Next) = Gen.Raise A e /\ cancellation e.
Proof.
  intros (Hp & Hw & Ha); unfold Gen.step.
  destruct (Gen.phase A g); [| |contradiction].
  - rewrite Ha; eexists; split; [reflexivity | right; reflexivity].
  - rewrite Hw; unfold Gen.loop_top; rewrite Ha; eexists; split; [reflexivity | left; reflexivity].
Qed.

End Cancel.

(** C10.  If the signal fires while the generator's body is running and
    no [next()] is awaiting, [abortHandler] appends the cancellation error to
    [errorQueue]; whatever events, stream errors or signal calls follow, the
    very next [next()] raises a cancellation error at the top of the loop,
    before any buffered event is yielded.  (Before the first [next()] no
    listener is registered yet: the entry check of the first [next()]
    raises it.) *)
Theorem abort_between_pulls_raised {A} c (g : Gen.Gen A) ins :
  Gen.phase A g <> Gen.Finished -> Gen.waiting A g = false -> Gen.aborted A g = false ->
  Forall producer_input ins ->
  (Gen.phase A g = Gen.Running ->
     Gen.errorQueue A (fst (Gen.step c g Gen.Abort)) = (Gen.errorQueue A g ++ [MouseError aborted_msg])%list)
  /\ exists e, snd (Gen.step c (Gen.run_gen c (fst (Gen.step c g Gen.Abort)) ins) Gen.Next)
               = Gen.Raise A e /\ cancellation e.
Proof.
  intros Hp Hw Ha Hins; split.
  - intro Hr; unfold Gen.step; rewrite Hr, Ha; unfold Gen.reject_or_queue, Gen.set_aborted; simpl.
    rewrite Hw; reflexivity.
  - apply aborted_idle_next, aborted_idle_run; [|exact Hins].
    unfold aborted_idle, Gen.step.
    destruct (Gen.phase A g) eqn:Ep; [| |contradiction]; simpl.
    + rewrite Ep; auto.
    + rewrite Ha; unfold Gen.reject_or_queue, Gen.set_aborted; simpl; rewrite Hw; simpl.
      rewrite Ep; auto.
Qed.

Lemma abort_between_pulls_raised_witness :
  let c := eventsOf_config false 100 in
  let g := Gen.run_gen c Gen.init [Gen.Next; Gen.Deliver no_event] in
  let ins := [Gen.Deliver no_event; Gen.StreamErr "boom"%string; Gen.Abort] in
  Gen.phase MouseEvent g = Gen.Running /\ Gen.waiting MouseEvent g = false /\
  (Gen.errorQueue MouseEvent (fst (Gen.step c g Gen.Abort))
     = (Gen.errorQueue MouseEvent g ++ [MouseError aborted_msg])%list
   /\ exists e, snd (Gen.step c (Gen.run_gen c (fst (Gen.step c g Gen.Abort)) ins) Gen.Next)
               = Gen.Raise MouseEvent e /\ cancellation e).
Proof.
  intros c g ins.
  pose proof (abort_between_pulls_raised c g ins) as T.
  split; [reflexivity|]; split; [reflexivity|].
  destruct T as [T1 T2];
    [discriminate | reflexivity | reflexivity
    | repeat constructor | ].
  split; [apply T1; reflexivity | exact T2].
Defined.

(** ** Bounded SGR matching *)

Lemma str_app_assoc (a b c : string) : ((a ++ b) ++ c = a ++ (b ++ c))%string.
Proof. induction a; simpl; congruence. Qed.

Lemma str_forallb_app p a b :
  str_forallb p (a ++ b)%string = str_forallb p a && str_forallb p b.
Proof. induction a; simpl; [reflexivity|]. rewrite IHa, andb_assoc; reflexivity. Qed.

Lemma str_forallb_impl (p q : ascii -> bool) s :
  (forall c, p c = true -> q c = true) -> str_forallb p s = true -> str_forallb q s = true.
Proof.
  intros Hpq; induction s as [|c s IH]; simpl; auto.
  intros H; apply andb_prop in H as [H1 H2]; rewrite (Hpq c H1), (IH H2); reflexivity.
Qed.

Lemma substring_prefix n s : exists z, s = (substring 0 n s ++ z)%string.
Proof.
  revert n; induction s as [|c s IH]; intros [|n]; simpl.
  - exists ""%string; reflexivity.
  - exists ""%string; reflexivity.
  - exists (String c s); reflexivity.
  - destruct (IH n) as [z Hz]; exists z; simpl; congruence.
Qed.

Lemma split_at_first (P : ascii -> bool) a c ca cc x y :
  str_forallb (fun ch => negb (P ch)) a = true ->
  str_forallb (fun ch => negb (P ch)) c = true ->
  P ca = true -> P cc = true ->
  (a ++ String ca x)%string = (c ++ String cc y)%string -> a = c /\ ca = cc /\ x = y.
Proof.
  revert c; induction a as [|a0 a IH]; intros [|c0 c] Ha Hc Hca Hcc E; simpl in *.
  - injection E as E1 E2; subst; auto.
  - injection E as E1 _; subst; rewrite Hca in Hc; discriminate.
  - injection E as E1 _; subst; rewrite Hcc in Ha; discriminate.
  - injection E as E1 E; subst.
    apply andb_prop in Ha as [_ Ha]; apply andb_prop in Hc as [_ Hc].
    destruct (IH c Ha Hc Hca Hcc E) as (-> & -> & ->); auto.
Qed.

Lemma rmatch_cat_eq {R} r1 r2 s caps (k : list string -> string -> option R) :
  Pattern.rmatch (Pattern.RCat r1 r2) s caps k
  = Pattern.rmatch r1 s caps (fun caps' t => Pattern.rmatch r2 t caps' k).
Proof. reflexivity. Qed.

Lemma rmatch_group_eq {R} r s caps (k : list string -> string -> option R) :
  Pattern.rmatch (Pattern.RGroup r) s caps k
  = Pattern.rmatch r s caps
      (fun caps' t => k (caps' ++ [substring 0 (String.length s - String.length t) s])%list t).
Proof. reflexivity. Qed.

Lemma rmatch_rep_S {R} r lo h s caps (k : list string -> string -> option R) :
  Pattern.rmatch (Pattern.RRep r lo (S h)) s caps k
  = match Pattern.rmatch r s caps (fun caps' t => Pattern.rmatch (Pattern.RRep r (Nat.pred lo) h) t caps' k) with
    | Some v => Some v
    | None => if Nat.eqb lo 0 then k caps s else None
    end.
Proof. reflexivity. Qed.

Lemma rmatch_char_inv {R} c s caps (k : list string -> string -> option R) v :
  Pattern.rmatch (Pattern.RChar c) s caps k = Some v ->
  exists t, s = String c t /\ k caps t = Some v.
Proof.
  destruct s as [|c' t]; simpl; [discriminate|].
  destruct (Ascii.eqb_spec c c'); [subst; eauto | discriminate].
Qed.

Lemma rmatch_class_inv {R} p s caps (k : list string -> string -> option R) v :
  Pattern.rmatch (Pattern.RClass p) s caps k = Some v ->
  exists c t, s = String c t /\ p c = true /\ k caps t = Some v.
Proof.
  destruct s as [|c t]; simpl; [discriminate|].
  destruct (p c) eqn:Pc; [eauto | discriminate].
Qed.

Lemma rmatch_rep_class {R} p lo hi s caps (k : list string -> string -> option R) v :
  Pattern.rmatch (Pattern.RRep (Pattern.RClass p) lo hi) s caps k = Some v ->
  exists pre t, s = (pre ++ t)%string /\ str_forallb p pre = true /\
    (lo <= String.length pre <= hi)%nat /\ k caps t = Some v.
Proof.
  revert lo s caps; induction hi as [|h IH]; intros lo s caps H.
  - simpl in H; destruct (Nat.eqb_spec lo 0); [subst | discriminate].
    exists ""%string, s; simpl; repeat split; auto.
  - rewrite rmatch_rep_S in H.
    destruct (Pattern.rmatch (Pattern.RClass p) s caps _) eqn:E.
    + injection H as <-.
      apply rmatch_class_inv in E as (c & t & -> & Pc & E).
      apply IH in E as (pre & t' & -> & Hpre & Hlen & Hk).
      exists (String c pre), t'; simpl; rewrite Pc, Hpre; repeat split; auto; lia.
    + destruct (Nat.eqb_spec lo 0); [subst | discriminate].
      exists ""%string, s; simpl; repeat split; auto; lia.
Qed.

Lemma sgr_exec_shape w res :
  Pattern.exec Pattern.sgrPattern w = Some res ->
  exists p1 p2 p3 m rest,
    w = String Pattern.ESC_char (String "["%char (String "<"%char
          (p1 ++ String ";"%char (p2 ++ String ";"%char (p3 ++ String m rest)))))%string
    /\ str_forallb Pattern.is_digit p1 = true /\ (1 <= String.length p1 <= 3)%nat
    /\ str_forallb Pattern.is_digit p2 = true /\ (1 <= String.length p2 <= 4)%nat
    /\ str_forallb Pattern.is_digit p3 = true /\ (1 <= String.length p3 <= 4)%nat
    /\ Pattern.is_Mm m = true.
Proof.
  unfold Pattern.exec, Pattern.sgrPattern; cbn [Pattern.cat]; intro H.
  rewrite rmatch_cat_eq in H; apply rmatch_char_inv in H as (t1 & -> & H); cbv beta in H.
  rewrite rmatch_cat_eq in H; apply rmatch_char_inv in H as (t2 & -> & H); cbv beta in H.
  rewrite rmatch_cat_eq in H; apply rmatch_char_inv in H as (t3 & -> & H); cbv beta in H.
  rewrite rmatch_cat_eq, rmatch_group_eq in H.
  apply rmatch_rep_class in H as (p1 & t4 & -> & D1 & L1 & H); cbv beta in H.
  rewrite rmatch_cat_eq in H; apply rmatch_char_inv in H as (t5 & -> & H); cbv beta in H.
  rewrite rmatch_cat_eq, rmatch_group_eq in H.
  apply rmatch_rep_class in H as (p2 & t6 & -> & D2 & L2 & H); cbv beta in H.
  rewrite rmatch_cat_eq in H; apply rmatch_char_inv in H as (t7 & -> & H); cbv beta in H.
  rewrite rmatch_cat_eq, rmatch_group_eq in H.
  apply rmatch_rep_class in H as (p3 & t8 & -> & D3 & L3 & H); cbv beta in H.
  rewrite rmatch_group_eq in H.
  apply rmatch_class_inv in H as (m & rest & -> & Hm & _).
  exists p1, p2, p3, m, rest; repeat split; auto; lia.
Qed.

Lemma scan_no_esc f s last :
  str_forallb (fun c => negb (Ascii.eqb c Pattern.ESC_char)) s = true ->
  Decoder.scan f s last = ([], last).
Proof.
  revert s; induction f as [|f IH]; intros s H; [reflexivity|].
  destruct s as [|c s']; [reflexivity|].
  simpl in H; apply andb_prop in H as [Hc H]; apply negb_true_iff in Hc.
  assert (Decoder.candidate (String c s') = None) as Hn.
  { unfold Decoder.candidate; destruct s' as [|b [|d r]]; auto; rewrite Hc; reflexivity. }
  cbn [Decoder.scan]; rewrite Hn; apply IH, H.
Qed.

Lemma field_char_parts c :
  field_char c = true ->
  negb (Ascii.eqb c ";"%char) = true /\ negb (Pattern.is_Mm c) = true
  /\ negb (Ascii.eqb c Pattern.ESC_char) = true.
Proof.
  unfold field_char; destruct (Ascii.eqb c ";"%char), (Pattern.is_Mm c),
    (Ascii.eqb c Pattern.ESC_char); simpl; intuition discriminate.
Qed.

Lemma digit_parts c :
  Pattern.is_digit c = true ->
  negb (Ascii.eqb c ";"%char) = true /\ negb (Pattern.is_Mm c) = true.
Proof.
  destruct c as [[] [] [] [] [] [] [] []]; vm_compute; intuition discriminate.
Qed.

Lemma Mm_not_esc c : Pattern.is_Mm c = true -> negb (Ascii.eqb c Pattern.ESC_char) = true.
Proof.
  unfold Pattern.is_Mm; intros H; apply orb_true_iff in H as [H|H];
    apply Ascii.eqb_eq in H; subst; reflexivity.
Qed.

(** C8.  An SGR report [ESC [ < fb ; fx ; fy t] ([t] being [M] or [m],
    and the fields holding no separator, terminator or ESC) whose button
    field is longer than 3 characters, or whose coordinate field is longer
    than 4, or which has a non-digit character in a field, does not match
    the SGR pattern within its 21-character window: the decoder returns no
    event (and raises nothing), and its deduplication memory is unchanged. *)
Theorem malformed_sgr_no_event fb fx fy t last :
  str_forallb field_char fb = true -> str_forallb field_char fx = true ->
  str_forallb field_char fy = true -> Pattern.is_Mm t = true ->
  malformed_fields fb fx fy = true ->
  Decoder.parseMouseEvents (sgr_report fb fx fy t) last = ([], last).
Proof.
  intros Hb Hx Hy Ht Hm.
  unfold Decoder.parseMouseEvents, sgr_report, ESC_str.
  set (X := ("[<" ++ fb ++ ";" ++ fx ++ ";" ++ fy ++ String t "")%string).
  assert (Hc : Decoder.candidate (String Pattern.ESC_char X)
               = Decoder.try_at Pattern.sgrPattern Pattern.MAX_sgr SGR (String Pattern.ESC_char X))
    by reflexivity.
  assert (Hn : Decoder.candidate (String Pattern.ESC_char X) = None).
  { rewrite Hc; unfold Decoder.try_at.
    destruct (Pattern.exec _ _) as [res|] eqn:E; [exfalso|reflexivity].
    apply sgr_exec_shape in E as (p1 & p2 & p3 & m & rest & Hw & D1 & L1 & D2 & L2 & D3 & L3 & Hm').
    destruct (substring_prefix Pattern.MAX_sgr (String Pattern.ESC_char X)) as [z Hz].
    rewrite Hw in Hz; unfold X in Hz; simpl in Hz.
    injection Hz as Hz; repeat (rewrite str_app_assoc in Hz; simpl in Hz).
    assert (Hsep : forall s, str_forallb field_char s = true ->
                   str_forallb (fun ch => negb (Ascii.eqb ch ";"%char)) s = true
                   /\ str_forallb (fun ch => negb (Pattern.is_Mm ch)) s = true).
    { intros s Hs; split; revert Hs; apply str_forallb_impl; intros ch Hch;
        apply field_char_parts in Hch; tauto. }
    assert (Hdig : forall s, str_forallb Pattern.is_digit s = true ->
                   str_forallb (fun ch => negb (Ascii.eqb ch ";"%char)) s = true
                   /\ str_forallb (fun ch => negb (Pattern.is_Mm ch)) s = true).
    { intros s Hs; split; revert Hs; apply str_forallb_impl; intros ch Hch;
        apply digit_parts in Hch; tauto. }
    destruct (Hsep fb Hb) as [Sb _], (Hsep fx Hx) as [Sx _], (Hsep fy Hy) as [_ My].
    destruct (Hdig p1 D1) as [S1 _], (Hdig p2 D2) as [S2 _], (Hdig p3 D3) as [_ M3].
    apply (split_at_first (fun ch => Ascii.eqb ch ";"%char)) in Hz as (<- & _ & Hz);
      [| exact Sb | exact S1 | reflexivity | reflexivity].
    apply (split_at_first (fun ch => Ascii.eqb ch ";"%char)) in Hz as (<- & _ & Hz);
      [| exact Sx | exact S2 | reflexivity | reflexivity].
    apply (split_at_first Pattern.is_Mm) in Hz as (<- & _ & _);
      [| exact My | exact M3 | exact Ht | exact Hm'].
    revert Hm; unfold malformed_fields; rewrite !str_forallb_app, D1, D2, D3; simpl.
    replace (3 <? String.length fb)%nat with false by (symmetry; apply Nat.ltb_ge; lia).
    replace (4 <? String.length fx)%nat with false by (symmetry; apply Nat.ltb_ge; lia).
    replace (4 <? String.length fy)%nat with false by (symmetry; apply Nat.ltb_ge; lia).
    discriminate. }
  cbn [Decoder.scan]; rewrite Hn.
  apply scan_no_esc; unfold X; simpl.
  repeat (rewrite str_forallb_app; simpl).
  assert (He : forall s, str_forallb field_char s = true ->
               str_forallb (fun ch => negb (Ascii.eqb ch Pattern.ESC_char)) s = true).
  { intros s; apply str_forallb_impl; intros ch Hch; apply field_char_parts in Hch; tauto. }
  rewrite (He fb Hb), (He fx Hx), (He fy Hy), (Mm_not_esc t Ht); reflexivity.
Qed.

Lemma malformed_sgr_no_event_witness :
  (str_forallb field_char "abc" = true /\ malformed_fields "abc" "10" "20" = true
   /\ Decoder.parseMouseEvents (sgr_report "abc" "10" "20" "M") None = ([], None))
  /\ (malformed_fields "0" "12345" "20" = true
   /\ Decoder.parseMouseEvents (sgr_report "0" "12345" "20" "m") None = ([], None)).
Proof.
  split; [split; [reflexivity | split; [reflexivity|]] | split; [reflexivity|]].
  - apply malformed_sgr_no_event; reflexivity.
  - apply malformed_sgr_no_event; reflexivity.
Defined.

(** ** Further properties of handleEvent *)

(** X1.  Whatever the listeners do, the clicks [handleEvent] schedules on
    a chunk are copies, with action [click], of release events of that
    chunk, taken in order and each at most once. *)
Theorem handleEvent_clicks_from_releases l lp evs :
  exists rs, subseq rs (filter is_release evs)
             /\ snd (fst (handleEvent l lp evs)) = map (fun r => with_action r Click) rs.
Proof.
  unfold handleEvent; simpl.
  revert lp; induction evs as [|ev rest IH]; intro lp; simpl.
  - exists []; split; [constructor | reflexivity].
  - destruct (l (action ev) ev); simpl.
    + exists []; split; [apply subseq_nil_l | reflexivity].
    + unfold click_step, is_release at 1.
      destruct (action ev) eqn:Ha; simpl;
        try (destruct (IH lp) as (rs & Hs & Ht); exists rs; split; [try apply subseq_skip; exact Hs | exact Ht]).
      * destruct lp as [p|].
        -- destruct (_ && _); simpl; destruct (IH None) as (rs & Hs & Ht).
           ++ exists (ev :: rs); split; [apply subseq_take, Hs | simpl; rewrite Ht; reflexivity].
           ++ exists rs; split; [apply subseq_skip, Hs | exact Ht].
        -- destruct (IH None) as (rs & Hs & Ht); exists rs; split; [apply subseq_skip, Hs | exact Ht].
      * destruct (IH (Some ev)) as (rs & Hs & Ht); exists rs; split; [exact Hs | exact Ht].
Qed.

(** X2.  With no listener throwing, handling the chunk [a ++ b] in one call
    publishes the same events, schedules the same clicks and leaves the same
    pending press as handling [a] and then [b] with the pending press [a]
    left: how the input is cut into chunks does not matter. *)
Theorem handleEvent_split_chunk lp a b :
  let '(out_a, t_a, lp_a) := handleEvent quiet lp a in
  let '(out_b, t_b, lp_b) := handleEvent quiet lp_a b in
  handleEvent quiet lp (a ++ b) = (out_a ++ out_b, t_a ++ t_b, lp_b).
Proof.
  unfold handleEvent; rewrite !handle_loop_quiet_threw, !handle_loop_quiet_emitted.
  destruct (handle_loop_quiet_app lp a b) as [H1 H2].
  rewrite H1, H2, map_app, !app_nil_r; reflexivity.
Qed.


(** X4.  With no listener throwing, the pending press after a chunk is
    decided by the chunk's last press or release: the press itself, or none
    after a release (whether or not a click was scheduled). *)
Theorem pending_press_after_chunk lp pre ev post :
  press_or_release ev = true -> filter press_or_release post = [] ->
  snd (handleEvent quiet lp (pre ++ ev :: post))
  = if action_eqb (action ev) Press then Some ev else None.
Proof.
  intros Hev Hpost; unfold handleEvent; simpl.
  destruct (handle_loop_quiet_app lp (pre ++ [ev]) post) as [_ H].
  rewrite <- app_assoc in H; simpl in H; rewrite H.
  assert (Hn : Forall (fun e => action e <> Press /\ action e <> Release) post).
  { apply Forall_forall; intros e He.
    assert (press_or_release e = false) as Hf.
    { destruct (press_or_release e) eqn:E; [|reflexivity].
      assert (In e (filter press_or_release post)) by (apply filter_In; auto).
      rewrite Hpost in H0; contradiction. }
    unfold press_or_release in Hf; destruct (action e); simpl in Hf; split; congruence. }
  rewrite (proj2 (handle_loop_quiet_neutral _ post Hn)).
  destruct (handle_loop_quiet_app lp pre [ev]) as [_ H3]; rewrite H3.
  generalize (lastPress_out (handle_loop quiet lp pre)); intro q; simpl.
  unfold press_or_release in Hev; unfold click_step.
  destruct (action ev); simpl in Hev |- *; try discriminate; auto.
  destruct q as [p|]; [destruct (_ && _)|]; reflexivity.
Qed.

Lemma pending_press_after_chunk_witness :
  press_or_release (with_action no_event Release) = true
  /\ filter press_or_release [no_event] = []
  /\ snd (handleEvent quiet (Some (with_action no_event Press))
          ([with_action no_event Press] ++ with_action no_event Release :: [no_event]))
     = None.
Proof.
  split; [reflexivity | split; [reflexivity|]].
  apply (pending_press_after_chunk (Some (with_action no_event Press))
           [with_action no_event Press] (with_action no_event Release) [no_event]);
    reflexivity.
Defined.

(** ** Further properties of enable / disable / destroy *)

(** X5.  [enable()] and [disable()] are idempotent: calling either twice in
    a row does exactly what one call does, whatever stream calls fail. *)
Theorem enable_disable_idempotent f s :
  (enable ;; enable) f s = enable f s /\ (disable ;; disable) f s = disable f s.
Proof.
  destruct s as [[en pe pr lp sub] [tty raw enc ps dl wr]].
  split; destruct en;
    unfold enable, disable, bind, get_mouse, get_world, put_mouse, try_catch,
      try_finally, io, ret, throw; simpl;
    try destruct tty; simpl; try destruct pe; try destruct pr; simpl;
    repeat (match goal with |- context [f ?op] => destruct (f op) end; simpl);
    reflexivity.
Qed.

(** X6.  On a disabled Mouse over an interactive input, with every stream
    call succeeding, [enable()] followed by [disable()] restores the raw
    mode the stream had, restores its encoding if it had one (otherwise it
    stays ["utf8"]), removes the data listener, leaves the stream paused,
    and writes the four enabling codes and then the four disabling codes in
    reverse order; the Mouse ends disabled with nothing saved. *)
Theorem enable_disable_roundtrip m w :
  enabled m = false -> isTTY w = true ->
  (enable ;; disable) no_faults (m, w)
  = ((mkMouse false None None (lastPress m) (subscribed m),
      mkWorld true (isRaw w)
        (match readableEncoding w with Some e => Some e | None => Some "utf8"%string end)
        true false
        (written w ++ [(mouseButton_on ++ mouseDrag_on ++ mouseMotion_on ++ mouseSGR_on)%string;
                       (mouseSGR_off ++ mouseMotion_off ++ mouseDrag_off ++ mouseButton_off)%string])),
     inl tt).
Proof.
  destruct m as [en pe pr lp sub], w as [tty raw enc ps dl wr]; simpl; intros -> ->.
  destruct enc; cbv -[app]; rewrite <- app_assoc; reflexivity.
Qed.

Lemma enable_disable_roundtrip_witness :
  enabled new_mouse = false /\ isTTY (mkWorld true true (Some "latin1"%string) false false []) = true
  /\ isRaw (snd (fst ((enable ;; disable) no_faults
                         (new_mouse, mkWorld true true (Some "latin1"%string) false false []))))
     = true.
Proof.
  split; [reflexivity | split; [reflexivity|]].
  rewrite (enable_disable_roundtrip new_mouse (mkWorld true true (Some "latin1"%string) false false []))
    by reflexivity.
  reflexivity.
Defined.

(** X7.  [enable()] on a disabled Mouse whose input is not a TTY throws the
    plain [Error] "Mouse events require a TTY input stream" before any
    stream call: the Mouse and the streams are left as they were. *)
Theorem enable_non_tty_untouched f m w :
  enabled m = false -> isTTY w = false ->
  enable f (m, w) = ((m, w), inr (PlainError "Mouse events require a TTY input stream")).
Proof.
  destruct m as [en pe pr lp sub], w as [tty raw enc ps dl wr]; simpl; intros -> ->.
  reflexivity.
Qed.

Lemma enable_non_tty_untouched_witness :
  enabled new_mouse = false /\ isTTY pipe_world = false
  /\ enable no_faults (new_mouse, pipe_world)
     = ((new_mouse, pipe_world), inr (PlainError "Mouse events require a TTY input stream")).
Proof.
  split; [reflexivity | split; [reflexivity|]].
  apply enable_non_tty_untouched; reflexivity.
Defined.





(** ** Further properties of the generators *)

Lemma outputs_app {A} c (g : Gen.Gen A) a b :
  Gen.outputs c g (a ++ b) = Gen.outputs c g a ++ Gen.outputs c (Gen.run_gen c g a) b.
Proof.
  revert g; induction a as [|i a IH]; intro g; simpl; [reflexivity|]; now rewrite IH.
Qed.

Lemma deliver_no_overflow {A} c (g : Gen.Gen A) evs :
  Gen.latestOnly c = false -> Gen.phase A g = Gen.Running -> Gen.waiting A g = false ->
  Z.of_nat (List.length (Gen.queue A g) + List.length evs) <= Gen.capacity c ->
  Gen.outputs c g (map Gen.Deliver evs) = List.repeat (Gen.Nothing A) (List.length evs)
  /\ Gen.run_gen c g (map Gen.Deliver evs)
     = Gen.mkGen A Gen.Running (Gen.queue A g ++ evs) (Gen.errorQueue A g) (Gen.latest A g)
                 false (Gen.aborted A g).
Proof.
  revert g; induction evs as [|ev evs IH]; intros g Hl Hp Hw Hc; simpl.
  - rewrite app_nil_r; split; [reflexivity|].
    destruct g as [ph q eq lat wt ab]; simpl in *; subst; reflexivity.
  - unfold Gen.step; rewrite Hp; unfold Gen.handler; rewrite Hw, Hl.
    replace (Z.of_nat (List.length (Gen.queue A g)) >=? Gen.capacity c) with false
      by (symmetry; rewrite Z.geb_leb; apply Z.leb_gt; simpl in Hc; lia).
    simpl; rewrite Hp.
    destruct (IH (Gen.mkGen A Gen.Running (Gen.queue A g ++ [ev]) (Gen.errorQueue A g)
                    (Gen.latest A g) false (Gen.aborted A g))) as [H1 H2];
      simpl; auto.
    + rewrite length_app; simpl in Hc |- *; lia.
    + rewrite H1, H2; simpl; split; [reflexivity|]; rewrite <- app_assoc; reflexivity.
Qed.

Lemma pull_queue {A} c q (lat : option A) :
  Gen.outputs c (Gen.mkGen A Gen.Running q [] lat false false) (List.repeat Gen.Next (List.length q))
  = map (Gen.Yield A) q.
Proof.
  induction q as [|ev q IH]; simpl; [reflexivity|]; now rewrite IH.
Qed.

(** X10.  In the default queue policy, on a running generator with no
    pending [next()] and no error, events delivered while the queue has
    room are yielded by the following [next()] calls in the order they
    arrived, after the events already buffered. *)
Theorem queue_fifo_order {A} c (g : Gen.Gen A) evs :
  Gen.latestOnly c = false -> Gen.phase A g = Gen.Running -> Gen.waiting A g = false ->
  Gen.aborted A g = false -> Gen.errorQueue A g = [] ->
  Z.of_nat (List.length (Gen.queue A g) + List.length evs) <= Gen.capacity c ->
  Gen.outputs c g (map Gen.Deliver evs ++ List.repeat Gen.Next (List.length (Gen.queue A g ++ evs)))
  = List.repeat (Gen.Nothing A) (List.length evs) ++ map (Gen.Yield A) (Gen.queue A g ++ evs).
Proof.
  intros Hl Hp Hw Ha He Hc.
  destruct (deliver_no_overflow c g evs Hl Hp Hw Hc) as [H1 H2].
  rewrite outputs_app, H1, H2, Ha, He, pull_queue; reflexivity.
Qed.

Lemma queue_fifo_order_witness :
  let c := eventsOf_config false 100 in
  let g := Gen.run_gen c Gen.init [Gen.Next; Gen.Deliver no_event] in
  let e1 := with_action no_event Press in
  let e2 := with_action no_event Release in
  Gen.phase MouseEvent g = Gen.Running /\ Gen.waiting MouseEvent g = false
  /\ Gen.outputs c g (map Gen.Deliver [e1; e2] ++ List.repeat Gen.Next 2)
     = [Gen.Nothing MouseEvent; Gen.Nothing MouseEvent; Gen.Yield MouseEvent e1; Gen.Yield MouseEvent e2].
Proof.
  intros c g e1 e2; split; [reflexivity | split; [reflexivity|]].
  apply (queue_fifo_order c g [e1; e2]); vm_compute; congruence.
Defined.

(** X11.  In the default queue policy with a capacity of at least 1, on a
    running generator with no pending [next()], the queue after a run of
    events holds exactly the newest of the buffered and delivered events,
    as many as the capacity allows: on overflow the oldest are dropped,
    never the newest. *)
Theorem queue_keeps_newest {A} c (g : Gen.Gen A) evs :
  Gen.latestOnly c = false -> Gen.phase A g = Gen.Running -> Gen.waiting A g = false ->
  1 <= Gen.capacity c -> Z.of_nat (List.length (Gen.queue A g)) <= Gen.capacity c ->
  Gen.queue A (Gen.run_gen c g (map Gen.Deliver evs))
  = skipn (List.length (Gen.queue A g ++ evs) - Z.to_nat (Gen.capacity c)) (Gen.queue A g ++ evs).
Proof.
  revert g; induction evs as [|ev evs IH]; intros g Hl Hp Hw Hc1 Hc; simpl.
  - rewrite app_nil_r; replace (List.length (Gen.queue A g) - Z.to_nat (Gen.capacity c))%nat
      with 0%nat by lia; reflexivity.
  - unfold Gen.step; rewrite Hp; unfold Gen.handler; rewrite Hw, Hl.
    destruct (Z.of_nat (List.length (Gen.queue A g)) >=? Gen.capacity c) eqn:E.
    + rewrite Z.geb_leb in E; apply Z.leb_le in E.
      destruct (Gen.queue A g) as [|a q] eqn:Eq; cbn [Datatypes.length] in E, Hc; [lia|].
      rewrite IH; cbn [fst Gen.phase Gen.waiting Gen.queue tl] in *; auto;
        [| rewrite length_app; cbn [Datatypes.length]; lia].
      rewrite <- app_assoc; change ([ev] ++ evs) with (ev :: evs).
      assert (K : (Datatypes.length ((a :: q) ++ ev :: evs) - Z.to_nat (Gen.capacity c)
                   = S (Datatypes.length (q ++ ev :: evs) - Z.to_nat (Gen.capacity c)))%nat)
        by (rewrite !length_app; cbn [Datatypes.length]; lia).
      rewrite K; reflexivity.
    + rewrite Z.geb_leb in E; apply Z.leb_gt in E.
      rewrite IH; cbn [fst Gen.phase Gen.waiting Gen.queue] in *; auto;
        [| rewrite length_app; cbn [Datatypes.length]; lia].
      rewrite <- app_assoc; reflexivity.
Qed.

Lemma queue_keeps_newest_witness :
  let c := eventsOf_config false 2 in
  let g := Gen.run_gen c Gen.init [Gen.Next; Gen.Deliver no_event] in
  let e1 := with_action no_event Press in
  let e2 := with_action no_event Release in
  let e3 := with_action no_event Drag in
  Gen.phase MouseEvent g = Gen.Running /\ Gen.waiting MouseEvent g = false
  /\ Gen.queue MouseEvent (Gen.run_gen c g (map Gen.Deliver [e1; e2; e3])) = [e2; e3].
Proof.
  intros c g e1 e2 e3; split; [reflexivity | split; [reflexivity|]].
  pose proof (queue_keeps_newest c g [e1; e2; e3] eq_refl eq_refl eq_refl
                ltac:(vm_compute; discriminate) ltac:(vm_compute; discriminate)) as T.
  rewrite T; vm_compute; reflexivity.
Defined.

(** X12.  With [latestOnly], on a running generator with no pending
    [next()], nothing buffered and no error, a burst of events is yielded
    as its last event alone, and the [next()] after that waits. *)
Theorem latest_only_keeps_last {A} c (g : Gen.Gen A) evs ev :
  Gen.latestOnly c = true -> Gen.phase A g = Gen.Running -> Gen.waiting A g = false ->
  Gen.aborted A g = false -> Gen.errorQueue A g = [] -> Gen.queue A g = [] ->
  Gen.outputs c g (map Gen.Deliver (evs ++ [ev]) ++ [Gen.Next; Gen.Next])
  = List.repeat (Gen.Nothing A) (S (List.length evs)) ++ [Gen.Yield A ev; Gen.Pending A].
Proof.
  intros Hl; rewrite map_app, <- app_assoc; revert g.
  induction evs as [|e evs IH]; intros [ph q eq lat wt ab]; simpl; intros -> -> -> -> ->;
    unfold Gen.step at 1; unfold Gen.handler; simpl; rewrite Hl; simpl.
  - unfold Gen.step, Gen.handler; simpl; rewrite Hl; reflexivity.
  - f_equal; apply IH; unfold Gen.step, Gen.handler; simpl; rewrite ?Hl; reflexivity.
Qed.

Lemma latest_only_keeps_last_witness :
  let c := eventsOf_config true 100 in
  let g := Gen.run_gen c Gen.init [Gen.Next; Gen.Deliver no_event] in
  let e1 := with_action no_event Press in
  let e2 := with_action no_event Release in
  Gen.phase MouseEvent g = Gen.Running /\ Gen.queue MouseEvent g = []
  /\ Gen.outputs c g (map Gen.Deliver ([e1] ++ [e2]) ++ [Gen.Next; Gen.Next])
     = [Gen.Nothing MouseEvent; Gen.Nothing MouseEvent; Gen.Yield MouseEvent e2; Gen.Pending MouseEvent].
Proof.
  intros c g e1 e2; split; [reflexivity | split; [reflexivity|]].
  apply (latest_only_keeps_last c g [e1] e2); reflexivity.
Defined.

Lemma finished_silent {A} c (g : Gen.Gen A) ins :
  Gen.phase A g = Gen.Finished -> Forall silent (Gen.outputs c g ins).
Proof.
  revert g; induction ins as [|i ins IH]; intros g Hp; simpl; [constructor|].
  unfold Gen.step at 1 2; rewrite Hp.
  destruct i; simpl; constructor; unfold silent; auto; apply IH; simpl; auto.
Qed.

(** X13.  When [next()] resumes a running generator whose signal has not
    fired and whose error queue is not empty, the first queued error is
    thrown, whatever events are buffered; the generator is then finished: it never yields or throws
    again, so the buffered events are lost. *)
Theorem error_first_then_silent {A} c (g : Gen.Gen A) e es ins :
  Gen.phase A g = Gen.Running -> Gen.waiting A g = false -> Gen.aborted A g = false ->
  Gen.errorQueue A g = e :: es ->
  exists outs, Gen.outputs c g (Gen.Next :: ins) = Gen.Raise A e :: outs /\ Forall silent outs.
Proof.
  intros Hp Hw Ha He; simpl.
  unfold Gen.step at 1 2; rewrite Hp, Hw; unfold Gen.loop_top; rewrite Ha, He.
  eexists; split; [reflexivity|]; apply finished_silent; reflexivity.
Qed.

Lemma error_first_then_silent_witness :
  let c := eventsOf_config false 100 in
  let g := Gen.run_gen c Gen.init
             [Gen.Next; Gen.Deliver no_event; Gen.Deliver no_event; Gen.StreamErr "EIO"%string] in
  Gen.phase MouseEvent g = Gen.Running /\ Gen.waiting MouseEvent g = false
  /\ Gen.aborted MouseEvent g = false /\ List.length (Gen.queue MouseEvent g) = 1%nat
  /\ exists outs, Gen.outputs c g [Gen.Next; Gen.Next; Gen.Deliver no_event; Gen.Next]
                  = Gen.Raise MouseEvent (wrap_stream_error "EIO") :: outs /\ Forall silent outs.
Proof.
  intros c g; split; [reflexivity | split; [reflexivity | split; [reflexivity | split; [reflexivity|]]]].
  apply (error_first_then_silent c g (wrap_stream_error "EIO") []); reflexivity.
Defined.

(** X14.  [return()] on a generator with no pending [next()] (before its
    first [next()], while running, or after it finished) answers
    [{done: true}]; afterwards the generator never yields or throws. *)
Theorem return_then_silent {A} c (g : Gen.Gen A) ins :
  Gen.waiting A g = false ->
  exists outs, Gen.outputs c g (Gen.Return :: ins) = Gen.Done A :: outs /\ Forall silent outs.
Proof.
  intro Hw; simpl; unfold Gen.step at 1 2.
  destruct (Gen.phase A g) eqn:Ep; try rewrite Hw;
    (eexists; split; [reflexivity|]); apply finished_silent; simpl; auto.
Qed.

Lemma return_then_silent_witness :
  let c := stream_config false 1000 in
  let g := Gen.run_gen c Gen.init [Gen.Next; Gen.Deliver (Press, no_event)] in
  Gen.waiting Tagged g = false
  /\ exists outs, Gen.outputs c g [Gen.Return; Gen.Next; Gen.Deliver (Click, no_event); Gen.Next]
                  = Gen.Done Tagged :: outs /\ Forall silent outs.
Proof.
  intros c g; split; [reflexivity|].
  apply return_then_silent; reflexivity.
Defined.



(** X16.  A generator subscribes only when its body starts, on the first
    [next()]: events delivered before it are lost, and, if the signal has
    not fired, that first [next()] waits. *)
Theorem events_before_start_lost {A} c (g : Gen.Gen A) evs :
  Gen.phase A g = Gen.NotStarted -> Gen.aborted A g = false ->
  Gen.outputs c g (map Gen.Deliver evs ++ [Gen.Next])
  = List.repeat (Gen.Nothing A) (List.length evs) ++ [Gen.Pending A].
Proof.
  intros Hp Ha; induction evs as [|ev evs IH]; simpl.
  - unfold Gen.step; rewrite Hp, Ha; reflexivity.
  - unfold Gen.step at 1 2; rewrite Hp; simpl; f_equal; exact IH.
Qed.

Lemma events_before_start_lost_witness :
  Gen.phase MouseEvent Gen.init = Gen.NotStarted /\ Gen.aborted MouseEvent Gen.init = false
  /\ Gen.outputs (eventsOf_config false 100) Gen.init (map Gen.Deliver [no_event; no_event] ++ [Gen.Next])
     = [Gen.Nothing MouseEvent; Gen.Nothing MouseEvent; Gen.Pending MouseEvent].
Proof.
  split; [reflexivity | split; [reflexivity|]].
  apply (events_before_start_lost (eventsOf_config false 100) Gen.init [no_event; no_event]);
    reflexivity.
Defined.



(** ** Further properties of the patterns (constants.ts) *)

Lemma rmatch_char_hit {R} c t caps (k : list string -> string -> option R) :
  Pattern.rmatch (Pattern.RChar c) (String c t) caps k = k caps t.
Proof. simpl; rewrite Ascii.eqb_refl; reflexivity. Qed.

Lemma rmatch_class_cons_eq {R} p c t caps (k : list string -> string -> option R) :
  Pattern.rmatch (Pattern.RClass p) (String c t) caps k = if p c then k caps t else None.
Proof. reflexivity. Qed.

Lemma rmatch_class_nil_eq {R} p caps (k : list string -> string -> option R) :
  Pattern.rmatch (Pattern.RClass p) EmptyString caps k = None.
Proof. reflexivity. Qed.

Lemma rmatch_rep_O {R} r lo s caps (k : list string -> string -> option R) :
  Pattern.rmatch (Pattern.RRep r lo 0) s caps k = if Nat.eqb lo 0 then k caps s else None.
Proof. reflexivity. Qed.

(** The greedy repetition of a class takes the longest run the bound
    allows: when that run is followed by a character outside the class, it
    is the run the continuation sees. *)
Lemma rmatch_rep_hit {R} p lo hi pre t caps (k : list string -> string -> option R) v :
  str_forallb p pre = true -> (lo <= String.length pre <= hi)%nat ->
  match t with String c _ => p c = false | EmptyString => True end ->
  k caps t = Some v ->
  Pattern.rmatch (Pattern.RRep (Pattern.RClass p) lo hi) (pre ++ t)%string caps k = Some v.
Proof.
  revert lo hi; induction pre as [|c pre IH]; intros lo hi Hp Hl Ht Hk;
    cbn [String.append String.length str_forallb] in *.
  - assert (lo = 0)%nat as -> by lia.
    destruct hi as [|h]; [rewrite rmatch_rep_O; exact Hk|].
    rewrite rmatch_rep_S; destruct t as [|c t'].
    + rewrite rmatch_class_nil_eq; exact Hk.
    + rewrite rmatch_class_cons_eq, Ht; exact Hk.
  - apply andb_prop in Hp as [Hc Hp].
    destruct hi as [|h]; [lia|].
    rewrite rmatch_rep_S, rmatch_class_cons_eq, Hc.
    rewrite (IH (Nat.pred lo) h); auto; lia.
Qed.

Lemma str_length_app (a b : string) :
  String.length (a ++ b) = (String.length a + String.length b)%nat.
Proof. induction a; simpl; auto. Qed.

Lemma substring_app_prefix pre t :
  substring 0 (String.length (pre ++ t) - String.length t) (pre ++ t) = pre.
Proof.
  rewrite str_length_app; replace (String.length pre + String.length t - String.length t)%nat
    with (String.length pre) by lia.
  induction pre as [|c pre IH]; simpl; [destruct t; reflexivity | now rewrite IH].
Qed.

Lemma substring_one c t :
  substring 0 (String.length (String c t) - String.length t) (String c t) = String c "".
Proof.
  replace (String.length (String c t) - String.length t)%nat with 1%nat by (cbn [String.length]; lia).
  destruct t; reflexivity.
Qed.

Lemma digit_not_Mm c : Pattern.is_Mm c = true -> Pattern.is_digit c = false.
Proof.
  unfold Pattern.is_Mm; intros H; apply orb_true_iff in H as [H|H];
    apply Ascii.eqb_eq in H; subst; reflexivity.
Qed.

(** The run of [sgrPattern] on a well-formed SGR report. *)
Lemma sgr_exec_report p1 p2 p3 m rest :
  str_forallb Pattern.is_digit p1 = true -> (1 <= String.length p1 <= 3)%nat ->
  str_forallb Pattern.is_digit p2 = true -> (1 <= String.length p2 <= 4)%nat ->
  str_forallb Pattern.is_digit p3 = true -> (1 <= String.length p3 <= 4)%nat ->
  Pattern.is_Mm m = true ->
  Pattern.exec Pattern.sgrPattern
    (String Pattern.ESC_char (String "["%char (String "<"%char
       (p1 ++ String ";"%char (p2 ++ String ";"%char (p3 ++ String m rest))))))%string
  = Some ([p1; p2; p3; String m ""],
          (6 + String.length p1 + String.length p2 + String.length p3)%nat).
Proof.
  intros D1 L1 D2 L2 D3 L3 Hm.
  unfold Pattern.exec, Pattern.sgrPattern; cbn [Pattern.cat].
  do 3 (rewrite rmatch_cat_eq, rmatch_char_hit; cbv beta).
  rewrite rmatch_cat_eq, rmatch_group_eq.
  apply rmatch_rep_hit; [exact D1 | exact L1 | reflexivity |]; cbv beta.
  rewrite substring_app_prefix, rmatch_cat_eq, rmatch_char_hit; cbv beta.
  rewrite rmatch_cat_eq, rmatch_group_eq.
  apply rmatch_rep_hit; [exact D2 | exact L2 | reflexivity |]; cbv beta.
  rewrite substring_app_prefix, rmatch_cat_eq, rmatch_char_hit; cbv beta.
  rewrite rmatch_cat_eq, rmatch_group_eq.
  apply rmatch_rep_hit; [exact D3 | exact L3 | apply digit_not_Mm, Hm |]; cbv beta.
  rewrite substring_app_prefix, rmatch_group_eq, rmatch_class_cons_eq, Hm, substring_one.
  f_equal; f_equal; try reflexivity.
  cbn [String.length]; repeat (rewrite str_length_app; cbn [String.length]); lia.
Qed.

(** X18.  [sgrPattern] reads an SGR report exactly: on
    [ESC [ < b ; x ; y t] followed by anything, with [b] 1 to 3 digits, [x]
    and [y] 1 to 4 digits and [t] one of [M], [m], it matches the report
    alone and captures [b], [x], [y] and [t]. *)
Theorem sgr_pattern_exact p1 p2 p3 m rest :
  str_forallb Pattern.is_digit p1 = true -> (1 <= String.length p1 <= 3)%nat ->
  str_forallb Pattern.is_digit p2 = true -> (1 <= String.length p2 <= 4)%nat ->
  str_forallb Pattern.is_digit p3 = true -> (1 <= String.length p3 <= 4)%nat ->
  Pattern.is_Mm m = true ->
  Pattern.exec Pattern.sgrPattern
    (String Pattern.ESC_char (String "["%char (String "<"%char
       (p1 ++ String ";"%char (p2 ++ String ";"%char (p3 ++ String m rest))))))%string
  = Some ([p1; p2; p3; String m ""],
          (6 + String.length p1 + String.length p2 + String.length p3)%nat).
Proof.
  intros D1 L1 D2 L2 D3 L3 Hm; apply sgr_exec_report; assumption.
Qed.

Lemma sgr_pattern_exact_witness :
  Pattern.exec Pattern.sgrPattern (ESC_str "[<255;9999;9999Mrest")
  = Some (["255"; "9999"; "9999"; "M"]%string, 17%nat).
Proof.
  change (ESC_str "[<255;9999;9999Mrest") with
    (String Pattern.ESC_char (String "["%char (String "<"%char
       ("255" ++ String ";"%char ("9999" ++ String ";"%char ("9999" ++ String "M"%char "rest"))))))%string.
  rewrite sgr_pattern_exact; try reflexivity; simpl; lia.
Defined.

(** X19.  Every match of [sgrPattern] is between 9 and 17 characters long,
    so it always fits the window of [MAX_EVENT_LENGTHS.sgr] = 21
    characters (which is 4 characters wider than the longest match,
    [ESC[<255;9999;9999M]); it captures three digit strings, of 1 to 3,
    1 to 4 and 1 to 4 digits, and the terminator [M] or [m]. *)
Theorem sgr_match_within_max w caps n :
  Pattern.exec Pattern.sgrPattern w = Some (caps, n) ->
  (9 <= n <= 17)%nat /\ (n < Pattern.MAX_sgr)%nat
  /\ exists p1 p2 p3 m, caps = [p1; p2; p3; String m ""]
     /\ str_forallb Pattern.is_digit p1 = true /\ (1 <= String.length p1 <= 3)%nat
     /\ str_forallb Pattern.is_digit p2 = true /\ (1 <= String.length p2 <= 4)%nat
     /\ str_forallb Pattern.is_digit p3 = true /\ (1 <= String.length p3 <= 4)%nat
     /\ Pattern.is_Mm m = true
     /\ n = (6 + String.length p1 + String.length p2 + String.length p3)%nat.
Proof.
  intro H; pose proof H as H0.
  apply sgr_exec_shape in H0 as (p1 & p2 & p3 & m & rest & -> & D1 & L1 & D2 & L2 & D3 & L3 & Hm).
  rewrite sgr_exec_report in H by assumption; injection H as <- <-.
  unfold Pattern.MAX_sgr; split; [lia | split; [lia|]].
  exists p1, p2, p3, m; repeat split; assumption || lia || reflexivity.
Qed.

Lemma sgr_match_within_max_witness :
  Pattern.exec Pattern.sgrPattern (ESC_str "[<255;9999;9999M") = Some (["255"; "9999"; "9999"; "M"]%string, 17%nat)
  /\ (9 <= 17 <= 17)%nat.
Proof.
  split; [vm_compute; reflexivity|].
  apply (fun H => proj1 (sgr_match_within_max (ESC_str "[<255;9999;9999M") ["255"; "9999"; "9999"; "M"]%string 17 H)).
  vm_compute; reflexivity.
Defined.

(** The run of [escPattern] on the six characters of a legacy mouse report. *)
Lemma esc_exec_report b cx cy rest :
  Pattern.exec Pattern.escPattern
    (String Pattern.ESC_char (String "["%char (String "M"%char
       (String b (String cx (String cy rest))))))
  = if Pattern.is_printable b && Pattern.is_printable cx && Pattern.is_printable cy
    then Some ([String b ""; String cx ""; String cy ""], 6%nat)
    else None.
Proof.
  unfold Pattern.exec, Pattern.escPattern; cbn [Pattern.cat].
  do 3 (rewrite rmatch_cat_eq, rmatch_char_hit; cbv beta).
  rewrite rmatch_cat_eq, rmatch_group_eq, rmatch_class_cons_eq.
  destruct (Pattern.is_printable b); [|reflexivity]; cbv beta.
  rewrite substring_one, rmatch_cat_eq, rmatch_group_eq, rmatch_class_cons_eq.
  destruct (Pattern.is_printable cx); [|reflexivity]; cbv beta.
  rewrite substring_one, rmatch_group_eq, rmatch_class_cons_eq.
  destruct (Pattern.is_printable cy); [|reflexivity]; cbv beta.
  rewrite substring_one; cbn [String.length andb app]; do 2 f_equal; lia.
Qed.

(** X20.  [escPattern] on [ESC [ M] followed by three characters matches
    exactly when all three are in [\x20-\x7f]; it then matches those six
    characters alone and captures the three characters. *)
Theorem esc_pattern_exact b cx cy rest :
  Pattern.exec Pattern.escPattern
    (String Pattern.ESC_char (String "["%char (String "M"%char
       (String b (String cx (String cy rest))))))
  = if Pattern.is_printable b && Pattern.is_printable cx && Pattern.is_printable cy
    then Some ([String b ""; String cx ""; String cy ""], 6%nat)
    else None.
Proof.
  apply esc_exec_report.
Qed.

(** X21.  Every match of [escPattern] is exactly [MAX_EVENT_LENGTHS.esc]
    = 6 characters long. *)
Theorem esc_match_is_max w caps n :
  Pattern.exec Pattern.escPattern w = Some (caps, n) -> n = Pattern.MAX_esc.
Proof.
  intro H; pose proof H as H0.
  unfold Pattern.exec, Pattern.escPattern in H0; cbn [Pattern.cat] in H0.
  rewrite rmatch_cat_eq in H0; apply rmatch_char_inv in H0 as (t1 & -> & H0); cbv beta in H0.
  rewrite rmatch_cat_eq in H0; apply rmatch_char_inv in H0 as (t2 & -> & H0); cbv beta in H0.
  rewrite rmatch_cat_eq in H0; apply rmatch_char_inv in H0 as (t3 & -> & H0); cbv beta in H0.
  rewrite rmatch_cat_eq, rmatch_group_eq in H0.
  apply rmatch_class_inv in H0 as (b & t4 & -> & _ & H0); cbv beta in H0.
  rewrite rmatch_cat_eq, rmatch_group_eq in H0.
  apply rmatch_class_inv in H0 as (cx & t5 & -> & _ & H0); cbv beta in H0.
  rewrite rmatch_group_eq in H0.
  apply rmatch_class_inv in H0 as (cy & rest & -> & _ & _).
  rewrite esc_exec_report in H.
  destruct (_ && _ && _); [injection H as _ <-; reflexivity | discriminate].
Qed.

Lemma esc_match_is_max_witness :
  Pattern.exec Pattern.escPattern (ESC_str "[M !!") = Some (([" "; "!"; "!"])%string, 6%nat)
  /\ 6%nat = Pattern.MAX_esc.
Proof.
  split; [vm_compute; reflexivity|].
  apply (esc_match_is_max (ESC_str "[M !!") [" "; "!"; "!"]%string 6); vm_compute; reflexivity.
Defined.
